(** * Scan / pick / place orchestration of the robotic arm (arm_system/main.py)

    A shallow embedding of class [Robot] and of the contract it relies on from
    the transport ([CommunicationManager]), followed by the properties of the
    orchestration engine.

    Conventions of the embedding:
    - Python dictionaries with a fixed shape are records; a key that may be
      absent is an [option] field; [self.placement_zones] and
      [movement_status] are finite maps with string keys.
    - Numbers that the core only passes along (angles, distances) are [Z];
      confidences and clock readings are rationals [Q] (the idealisation of
      the floats the interpreter uses).
    - [str.lower] is modelled on ASCII letters, which is exact for every
      class name whose lower-case form is one of the configured keys. *)

From Stdlib Require Import ZArith QArith Lia Lqa Ascii String.
From stdpp Require Import base option strings list gmap.

Local Open Scope Z_scope.
Local Open Scope string_scope.
Local Open Scope list_scope.

(** ** Data model *)

(** A placement destination: [{'angle': _, 'distance': _}]. *)
Record PlacementZone := mkZone {
  zone_angle : Z;
  zone_distance : Z
}.

(** A detection event as delivered by the transport: every key may be
    missing, which is what [data.get(key, default)] guards against. *)
Record DetectionEvent := mkEvent {
  ev_class : option string;
  ev_angle : option Z;
  ev_distance : option Z;
  ev_confidence : option Q;
  ev_image_path : option string
}.

(** The provisional record appended by [_update_object_registry]:
    [{'position': {..}, 'detection': {..}, 'placement_zone': ..}]. *)
Record Provisional := mkProvisional {
  position_angle : Z;
  position_distance : Z;
  detection_class : string;
  detection_confidence : Q;
  detection_image : string;
  provisional_zone : PlacementZone
}.

(** The finalized record built by [process_scan_results]:
    [{'index', 'center_angle', 'distance', 'class', 'confidence',
      'placement_zone'}]. *)
Record Scanned := mkScanned {
  index : Z;
  center_angle : Z;
  distance : Z;
  class : string;
  confidence : Q;
  placement_zone : PlacementZone
}.

(** [self.scan_results] holds dictionaries of either shape. *)
Inductive Entry :=
  | Raw (p : Provisional)
  | Item (s : Scanned).

(** ** ZoneMapper *)

(** [self.placement_zones], set once in [__init__]. *)
Definition placement_zones : gmap string PlacementZone :=
  <["apple" := mkZone 90 200]>
  (<["orange" := mkZone 180 200]>
  (<["bottle" := mkZone 45 200]>
  (<["default" := mkZone 270 200]> ∅))).

(** [str.lower] on ASCII letters. *)
Definition lower_ascii (c : ascii) : ascii :=
  let n := nat_of_ascii c in
  if (Nat.leb 65 n && Nat.leb n 90)%bool then ascii_of_nat (n + 32) else c.

Fixpoint lower (s : string) : string :=
  match s with
  | EmptyString => EmptyString
  | String c s' => String (lower_ascii c) (lower s')
  end.

(** [_get_placement_zones]:
    [self.placement_zones.get(object_class.lower(), self.placement_zones['default'])].
    The fallback argument is evaluated before [get] runs, so the function
    raises [KeyError] ([None] here) when the table has no ['default'] key. *)
Definition zones_get (zones : gmap string PlacementZone) (object_class : string)
  : option PlacementZone :=
  match zones !! "default" with
  | Some d => Some (default d (zones !! lower object_class))
  | None => None
  end.

Definition _get_placement_zones (object_class : string) : option PlacementZone :=
  zones_get placement_zones object_class.

(** ** Messages, exceptions, log records *)

(** One step of a movement plan: the ['joint'] key is always present in the
    plans the orchestrator builds, the other keys depend on the step. *)
Record MovementStep := mkStep {
  joint : string;
  step_angle : option Z;
  step_distance : option Z;
  step_action : option string;
  step_speed : option Z
}.

(** The payload dictionary of an outbound message. *)
Inductive Payload :=
  | PEmpty                       (* {} *)
  | PScan (speed : Z)            (* {'speed': 20} *)
  | PStep (move : MovementStep).

Record Message := mkMessage {
  service : string;
  payload : Payload
}.

(** Exceptions derived from [Exception]; [SystemExit] is not one of them and
    is a separate outcome of a computation (see [Res]). *)
Inductive Exn :=
  | Exception (msg : string)
  | KeyError (key : string)
  | ValueError (msg : string)
  | EOFError.

Definition str (e : Exn) : string :=
  match e with
  | Exception msg => msg
  | KeyError key => "'" +:+ key +:+ "'"
  | ValueError msg => msg
  | EOFError => "EOF when reading a line"
  end.

Inductive Level := INFO | WARNING | ERROR.

(** What the program writes: log records whose text the embedding reproduces,
    records that interpolate numbers (kept structured), and printed lines. *)
Inductive LogRecord :=
  | Log (lvl : Level) (text : string)
  | LogObjectsScanned (n : nat)
  | LogObj (s : Scanned)
  | LogTarget (s : Scanned)
  | PrintObj (s : Scanned)
  | Print (text : string).

(** ** The state the orchestrator and the transport share *)

Record World := mkWorld {
  scan_results : list Entry;              (* self.scan_results *)
  scan_callback : bool;                   (* callback registered for 'scan_service':
                                             [true] is self._scan_callback, [false] is None *)
  movement_status : gmap string string;   (* serial_manager.movement_status[joint]['state'] *)
  safety_status : option string;          (* serial_manager.safety_status.get('state') *)
  sent : list Message;                    (* every send_message call, oldest first *)
  closes : nat;                           (* number of serial_manager.close() calls *)
  log : list LogRecord                    (* oldest first *)
}.

Definition set_scan_results (l : list Entry) (w : World) : World :=
  mkWorld l (scan_callback w) (movement_status w) (safety_status w)
          (sent w) (closes w) (log w).

Definition set_scan_callback (b : bool) (w : World) : World :=
  mkWorld (scan_results w) b (movement_status w) (safety_status w)
          (sent w) (closes w) (log w).

Definition set_movement_status (m : gmap string string) (w : World) : World :=
  mkWorld (scan_results w) (scan_callback w) m (safety_status w)
          (sent w) (closes w) (log w).

Definition set_safety_status (s : option string) (w : World) : World :=
  mkWorld (scan_results w) (scan_callback w) (movement_status w) s
          (sent w) (closes w) (log w).

Definition add_sent (m : Message) (w : World) : World :=
  mkWorld (scan_results w) (scan_callback w) (movement_status w) (safety_status w)
          (sent w ++ [m]) (closes w) (log w).

Definition add_close (w : World) : World :=
  mkWorld (scan_results w) (scan_callback w) (movement_status w) (safety_status w)
          (sent w) (S (closes w)) (log w).

Definition add_log (r : LogRecord) (w : World) : World :=
  mkWorld (scan_results w) (scan_callback w) (movement_status w) (safety_status w)
          (sent w) (closes w) (log w ++ [r]).

(** ** Computations: state, exceptions, process exit *)

(** The outcome of running a method from a world: it returns, it raises an
    [Exception], it raises [SystemExit] (which no [except Exception] clause
    catches), or the model ran out of fuel in a polling loop. *)
Inductive Res (A : Type) :=
  | Ret (a : A) (w : World)
  | Raise (e : Exn) (w : World)
  | Exit (code : Z) (w : World)
  | OutOfFuel.

Arguments Ret {A} a w.
Arguments Raise {A} e w.
Arguments Exit {A} code w.
Arguments OutOfFuel {A}.

Definition M (A : Type) : Type := World -> Res A.

Definition ret {A} (a : A) : M A := fun w => Ret a w.

Definition bind {A B} (m : M A) (k : A -> M B) : M B :=
  fun w =>
    match m w with
    | Ret a w' => k a w'
    | Raise e w' => Raise e w'
    | Exit c w' => Exit c w'
    | OutOfFuel => OutOfFuel
    end.

Notation "'let!' x ':=' m 'in' k" := (bind m (fun x => k))
  (at level 10, x name, m at level 100, k at level 200, only parsing).
Notation "m >> k" := (bind m (fun _ => k))
  (at level 100, k at level 200, right associativity, only parsing).

Definition raise {A} (e : Exn) : M A := fun w => Raise e w.

(** [exit(code)] raises [SystemExit]. *)
Definition exit {A} (code : Z) : M A := fun w => Exit code w.

(** A state update that cannot fail. *)
Definition modify (f : World -> World) : M unit := fun w => Ret tt (f w).

Definition get_world : M World := fun w => Ret w w.

(** [try: m except Exception as e: h e]. *)
Definition try_except {A} (m : M A) (h : Exn -> M A) : M A :=
  fun w =>
    match m w with
    | Raise e w' => h e w'
    | r => r
    end.

(** [try: m finally: f]: the finalizer runs on every way out of [m]. *)
Definition try_finally {A} (m : M A) (f : M unit) : M A :=
  fun w =>
    match m w with
    | Ret a w' => bind f (fun _ => ret a) w'
    | Raise e w' => bind f (fun _ => raise e) w'
    | Exit c w' => bind f (fun _ => exit c) w'
    | OutOfFuel => OutOfFuel
    end.

(** The line feed of the ["\n"] escapes. *)
Definition nl : string := String (ascii_of_nat 10) "".

Definition log_info (text : string) : M unit := modify (add_log (Log INFO text)).
Definition log_warning (text : string) : M unit := modify (add_log (Log WARNING text)).
Definition log_error (text : string) : M unit := modify (add_log (Log ERROR text)).
Definition print (text : string) : M unit := modify (add_log (Print text)).

(** ** The transport contract (serial_manager) *)

(** Modelled from the spec: [communication/serial_manager.py] is not part of
    the sources; [send_message] hands one tagged message to the transport. *)
Definition send_message (message_type : string) (data : Payload) : M unit :=
  modify (add_sent (mkMessage message_type data)).

(** Modelled from the spec: [register_callback('scan_service', cb)] replaces
    the detection subscription; [cb] is [self._scan_callback] or [None]. *)
Definition register_callback (cb : bool) : M unit :=
  modify (set_scan_callback cb).

(** Modelled from the spec: [close()] releases the connection; the model
    counts the calls. *)
Definition close : M unit := modify add_close.

(** How a wait for a joint's confirmation ends. *)
Inductive Confirmation := Completed | Failed | TimedOut.

(** Modelled from the spec: [wait_for_confirmation(joint)] blocks until the
    joint's status becomes [completed] (true) or becomes [failed] or the
    per-step timeout elapses (false); the status is written by the
    transport's confirmation delivery. *)
Definition wait_for_confirmation (c : Confirmation) (j : string) : M bool :=
  match c with
  | Completed =>
      modify (fun w => set_movement_status (<[j := "completed"]> (movement_status w)) w) >>
      ret true
  | Failed =>
      modify (fun w => set_movement_status (<[j := "failed"]> (movement_status w)) w) >>
      ret false
  | TimedOut => ret false
  end.

(** ** ObjectRegistry *)

(** Truth value of [data.get('class')]: a missing key gives [None] and an
    empty string is falsy. *)
Definition truthy (o : option string) : bool :=
  match o with
  | Some (String _ _) => true
  | _ => false
  end.

(** [_update_object_registry]: append the provisional record; any
    [Exception] raised while building it is logged and swallowed. *)
Definition _update_object_registry (data : DetectionEvent) : M unit :=
  try_except
    (let! zone := (match _get_placement_zones (default "default" (ev_class data)) with
              | Some z => ret z
              | None => raise (KeyError "default")
              end) in
     modify (fun w =>
       set_scan_results
         (scan_results w ++
            [Raw (mkProvisional
                    (default 0 (ev_angle data))
                    (default 0 (ev_distance data))
                    (default "default" (ev_class data))
                    (default 0%Q (ev_confidence data))
                    (default "" (ev_image_path data))
                    zone)]) w))
    (fun e => log_error ("error updating registry: " +:+ str e)).

(** [_scan_callback]. *)
Definition _scan_callback (data : DetectionEvent) : M unit :=
  if truthy (ev_class data) then _update_object_registry data else ret tt.

(** Modelled from the spec: the transport hands a detection event to the
    handler registered for ['scan_service'], if there is one. *)
Definition deliver (data : DetectionEvent) : M unit :=
  let! w := get_world in
  if scan_callback w then _scan_callback data else ret tt.

Fixpoint deliver_all (events : list DetectionEvent) : M unit :=
  match events with
  | [] => ret tt
  | data :: rest => deliver data >> deliver_all rest
  end.

(** The body of the [for i, obj in enumerate(self.scan_results, start=1)]
    loop of [process_scan_results]; [obj['position']] raises [KeyError] on a
    record that has already been finalized. *)
Fixpoint process_entries (i : Z) (objs : list Entry) (processed_list : list Entry)
  : M (list Entry) :=
  match objs with
  | [] => ret processed_list
  | Raw obj :: rest =>
      let item := mkScanned i (position_angle obj) (position_distance obj)
                            (detection_class obj) (detection_confidence obj)
                            (provisional_zone obj) in
      modify (add_log (LogObj item)) >>
      process_entries (i + 1) rest (processed_list ++ [Item item])
  | Item _ :: _ => raise (KeyError "position")
  end.

(** [process_scan_results]. *)
Definition process_scan_results : M unit :=
  let! w := get_world in
  match scan_results w with
  | [] => log_warning "scanning completed without object detection"
  | _ :: _ =>
      modify (add_log (LogObjectsScanned (length (scan_results w)))) >>
      let! processed_list := process_entries 1 (scan_results w) [] in
      modify (set_scan_results processed_list)
  end.

(** What the transport does while [handle_scan_command] is blocked in
    [scan_complete_event.wait(timeout=60)]: the detection events it delivers,
    in arrival order, and whether the scan-complete signal arrives within the
    60 time units. *)
Record ScanEnv := mkScanEnv {
  scan_events : list DetectionEvent;
  scan_signalled : bool
}.

(** Modelled from the spec: [scan_complete_event.wait(timeout=60)] followed,
    when it succeeds, by [scan_complete_event.clear()]. *)
Definition scan_complete_wait (env : ScanEnv) : M bool :=
  deliver_all (scan_events env) >>
  ret (scan_signalled env).

(** [handle_scan_command]. *)
Definition handle_scan_command (env : ScanEnv) : M unit :=
  modify (set_scan_results []) >>
  register_callback true >>
  send_message "scan_service" (PScan 20) >>
  log_info "scanning in progress..." >>
  let! signalled := scan_complete_wait env in
  (if signalled then process_scan_results else log_error "scanning timeout") >>
  register_callback false.

(** [Robot.__init__]: the world right after construction.  The constructor
    empties [scan_results] and registers [_scan_callback] for
    ['scan_service']; the transport has sent nothing and holds no joint or
    safety status yet. *)
Definition Robot_init : World :=
  mkWorld [] true ∅ None [] 0 [].

(** A detection event with every key present. *)
Definition detection (cls : string) (angle dist : Z) : DetectionEvent :=
  mkEvent (Some cls) (Some angle) (Some dist) (Some 0.9%Q) (Some "img.jpg").

(** A detection event without the ['class'] key. *)
Definition no_class (angle dist : Z) : DetectionEvent :=
  mkEvent None (Some angle) (Some dist) (Some 0.9%Q) (Some "img.jpg").

(** A detection event whose class is the empty string. *)
Definition empty_class (angle dist : Z) : DetectionEvent :=
  mkEvent (Some "") (Some angle) (Some dist) (Some 0.9%Q) (Some "img.jpg").

(** The world a computation ends in. *)
Definition result_world {A} (r : Res A) : option World :=
  match r with
  | Ret _ w | Raise _ w | Exit _ w => Some w
  | OutOfFuel => None
  end.

(** ** SafetyCoordinator *)

(** What the clock and the transport do during one run of
    [handle_movement_failure]: the reading taken for [start_time], the
    reading of [time.time()] at the i-th evaluation of the loop test, and the
    safety status the transport delivers (if any) before the i-th read of
    [safety_status]. *)
Record SafetyEnv := mkSafetyEnv {
  start_time : Q;
  poll_time : nat -> Q;
  poll_delivery : nat -> option string
}.

(** Modelled from the spec: safety-status delivery updates
    [serial_manager.safety_status]; [None] is no delivery. *)
Definition safety_delivery (d : option string) : M unit :=
  match d with
  | Some s => modify (set_safety_status (Some s))
  | None => ret tt
  end.

(** [self.serial_manager.safety_status.get('state') == 'completed']. *)
Definition is_completed (state : option string) : bool :=
  match state with
  | Some s => String.eqb s "completed"
  | None => false
  end.

(** The [while (time.time() - start_time) < 15] loop of
    [handle_movement_failure] from its i-th test on, followed by the code
    after the loop; [time.sleep(0.5)] is where the clock of [env] advances. *)
Fixpoint safety_poll (env : SafetyEnv) (fuel i : nat) : M unit :=
  match fuel with
  | O => fun _ => OutOfFuel
  | S fuel' =>
      if Qlt_le_dec (poll_time env i - start_time env) 15 then
        safety_delivery (poll_delivery env i) >>
        let! w := get_world in
        if is_completed (safety_status w) then
          log_info "system safety"
        else
          safety_poll env fuel' (S i)
      else
        log_error "error in safety service" >>
        close >>
        exit 1
  end.

(** [handle_movement_failure]: returning is the spec's [Recovered],
    [SystemExit] is its [Fatal]. *)
Definition handle_movement_failure (env : SafetyEnv) (fuel : nat) : M unit :=
  log_error "executing security protocol" >>
  send_message "safety_service" PEmpty >>
  safety_poll env fuel 0.

(** ** MovementSequencer *)

(** The [for move in movement_sequence] loop of [execute_movement];
    [confirm k] is how the wait for the step at position [k] (from 0) ends. *)
Fixpoint execute_steps (message_type : string) (moves : list MovementStep)
    (confirm : nat -> Confirmation) (k : nat) (env : SafetyEnv) (fuel : nat) : M unit :=
  match moves with
  | [] => ret tt
  | move :: rest =>
      try_except
        (let j := joint move in
         log_info ("movement: " +:+ j) >>
         modify (fun w => set_movement_status (<[j := "pending"]> (movement_status w)) w) >>
         send_message message_type (PStep move) >>
         let! ok := wait_for_confirmation (confirm k) j in
         if negb ok then raise (Exception ("movement failed in: " +:+ j))
         else log_info ("-> ¡Movement " +:+ j +:+ " completed!"))
        (fun e =>
           log_error ("error in movement: " +:+ str e) >>
           handle_movement_failure env fuel >>
           raise e) >>
      execute_steps message_type rest confirm (S k) env fuel
  end.

(** [execute_movement]. *)
Definition execute_movement (message_type : string) (movement_sequence : list MovementStep)
    (confirm : nat -> Confirmation) (env : SafetyEnv) (fuel : nat) : M unit :=
  log_info (nl +:+ "execution movements:") >>
  execute_steps message_type movement_sequence confirm 0 env fuel.

(** The pick plan of [execute_pick_sequence]. *)
Definition pick_plan (target_object : Scanned) : list MovementStep :=
  [ mkStep "base" (Some (center_angle target_object)) None None (Some 30);
    mkStep "arm" None (Some (distance target_object)) (Some "pick") None;
    mkStep "gripper" None None (Some "close") None;
    mkStep "arm" None (Some (distance target_object)) (Some "up") None ].

(** The place plan of [execute_place_sequence]. *)
Definition place_plan (target_object : Scanned) : list MovementStep :=
  let zone_params := placement_zone target_object in
  [ mkStep "base" (Some (zone_angle zone_params)) None None (Some 30);
    mkStep "arm" None (Some (zone_distance zone_params)) (Some "place") None;
    mkStep "gripper" None None (Some "open") None;
    mkStep "arm" None (Some (distance target_object)) (Some "up") None;
    mkStep "base" (Some 0) None None (Some 60) ].

(** [execute_pick_sequence]. *)
Definition execute_pick_sequence (target_object : Scanned)
    (confirm : nat -> Confirmation) (env : SafetyEnv) (fuel : nat) : M bool :=
  try_except
    (execute_movement "pick_service" (pick_plan target_object) confirm env fuel >>
     ret true)
    (fun e => log_error ("Error in pick sequence: " +:+ str e) >> ret false).

(** [execute_place_sequence]. *)
Definition execute_place_sequence (target_object : Scanned)
    (confirm : nat -> Confirmation) (env : SafetyEnv) (fuel : nat) : M bool :=
  try_except
    (execute_movement "place_service" (place_plan target_object) confirm env fuel >>
     ret true)
    (fun e => log_error ("Error in place sequence: " +:+ str e) >> ret false).

(** ** Joint angles *)




(** ** Orchestrator *)

(** White space as [str.strip] sees it on the menu line: the code points
    below 256 for which [str.isspace] holds, which are 9 to 13, 28 to 32,
    133 and 160. A character of a [string] stands for the code point of its
    number. *)
Definition is_space (c : ascii) : bool :=
  let n := nat_of_ascii c in
  ((Nat.leb 9 n && Nat.leb n 13) || (Nat.leb 28 n && Nat.leb n 32) ||
   Nat.eqb n 133 || Nat.eqb n 160)%bool.

Fixpoint lstrip (s : string) : string :=
  match s with
  | String c s' => if is_space c then lstrip s' else s
  | EmptyString => EmptyString
  end.

Fixpoint rstrip (s : string) : string :=
  match s with
  | String c s' =>
      match rstrip s' with
      | EmptyString => if is_space c then EmptyString else String c EmptyString
      | t => String c t
      end
  | EmptyString => EmptyString
  end.

Definition strip (s : string) : string := rstrip (lstrip s).

(** What [int(input(...))] comes to when [select_object_interactively]
    asks for the selection: [input] raises [EOFError] because the input has
    ended; a [ValueError] is raised, by [int] on a line that is no integer
    literal for it or by [input] on bytes it cannot decode; or [int] reads
    an integer. How Python reads a line as an integer is left to Python:
    the selection depends on the line through this outcome only. *)
Inductive Answer :=
  | EndOfInput
  | NotAnInteger
  | Integer (n : Z).

(** The listing loop of [select_object_interactively]: [o['index']] raises
    [KeyError] on a record that was never finalized. *)
Fixpoint print_listing (objs : list Entry) : M unit :=
  match objs with
  | [] => ret tt
  | Item o :: rest => modify (add_log (PrintObj o)) >> print_listing rest
  | Raw _ :: _ => raise (KeyError "index")
  end.

(** [next((x for x in self.scan_results if x['index'] == selection), {})];
    the empty dictionary is [None]. *)
Fixpoint find_index (selection : Z) (objs : list Entry) : M (option Scanned) :=
  match objs with
  | [] => ret None
  | Item x :: rest =>
      if Z.eqb (index x) selection then ret (Some x) else find_index selection rest
  | Raw _ :: _ => raise (KeyError "index")
  end.

(** [try: m except ValueError: h]. *)
Definition try_except_ValueError {A} (m : M A) (h : M A) : M A :=
  fun w =>
    match m w with
    | Raise (ValueError _) w' => h w'
    | r => r
    end.

(** [select_object_interactively]; [answer] is what [int(input(...))] comes
    to.  [EOFError] is no [ValueError] and leaves the function uncaught. *)
Definition select_object_interactively (answer : Answer) : M (option Scanned) :=
  print (nl +:+ "=== OBJECTS DETECTED LIST ===") >>
  let! w := get_world in
  print_listing (scan_results w) >>
  print "[0] cancelar" >>
  try_except_ValueError
    (let! selection := (match answer with
                        | Integer n => ret n
                        | NotAnInteger => raise (ValueError "invalid literal for int()")
                        | EndOfInput => raise EOFError
                        end) in
     if Z.eqb selection 0 then
       print "operation canceled" >> ret None
     else
       let! w' := get_world in
       find_index selection (scan_results w'))
    (print "invalid input" >> ret None).

(** What the user and the transport do during one pick and place command. *)
Record PickPlaceEnv := mkPickPlaceEnv {
  answer : Answer;
  pick_confirm : nat -> Confirmation;
  place_confirm : nat -> Confirmation;
  safety_env : SafetyEnv
}.

(** [handle_pick_place_command]. *)
Definition handle_pick_place_command (env : PickPlaceEnv) (fuel : nat) : M unit :=
  let! w := get_world in
  match scan_results w with
  | [] => log_warning "1. first scanning the enviroment (option 'n')"
  | _ :: _ =>
      let! selected_object := select_object_interactively (answer env) in
      match selected_object with
      | None => ret tt
      | Some obj =>
          modify (add_log (LogTarget obj)) >>
          let! picked := execute_pick_sequence obj (pick_confirm env) (safety_env env) fuel in
          if picked then
            log_info "¡pick completed!" >>
            let! placed := execute_place_sequence obj (place_confirm env) (safety_env env) fuel in
            if placed then log_info "¡pick and place completed!" else ret tt
          else ret tt
      end
  end.

(** One thing that happens while the menu is running: the user enters a
    line (with what the transport does during the command it starts), or the
    transport delivers a detection event while the menu waits for input. *)
Inductive Step :=
  | Input (line : string) (scan : ScanEnv) (pick_place : PickPlaceEnv)
  | Detection (data : DetectionEvent).

Definition print_menu : M unit :=
  print (nl +:+ "=== Main menu ===") >>
  print " [c] check service" >>
  print " [s] safety service" >>
  print " [n] scan service" >>
  print " [p] pick & place service" >>
  print " [q] exit".

(** [main_menu_loop] over a script; when the script has no more lines
    [input] raises [EOFError].  The [time.sleep(0.5)] that ends every
    iteration changes nothing in the world. *)
Fixpoint main_menu_loop (fuel : nat) (script : list Step) : M unit :=
  match script with
  | [] => print_menu >> raise EOFError
  | Detection data :: rest => deliver data >> main_menu_loop fuel rest
  | Input line scan pick_place :: rest =>
      print_menu >>
      let user_input := lower (strip line) in
      if String.eqb user_input "c" then
        send_message "check_service" PEmpty >> main_menu_loop fuel rest
      else if String.eqb user_input "s" then
        send_message "safety_service" PEmpty >> main_menu_loop fuel rest
      else if String.eqb user_input "n" then
        handle_scan_command scan >> main_menu_loop fuel rest
      else if String.eqb user_input "p" then
        handle_pick_place_command pick_place fuel >> main_menu_loop fuel rest
      else if String.eqb user_input "q" then
        ret tt
      else
        print "command unrecognized" >> main_menu_loop fuel rest
  end.

(** [run]; [connected] is the result of [serial_manager.connect()]. *)
Definition run (connected : bool) (fuel : nat) (script : list Step) : M unit :=
  try_finally
    (if connected then
       log_info "connected to VEX brain" >> main_menu_loop fuel script
     else ret tt)
    (log_info "closing serial connection." >> close).

(** * The video stream (course/vision_class/video_stream.py) *)

(** What one iteration of the loop of [start_stream] gets from the camera,
    the image processor and the keyboard: the flag returned by
    [video_capture.read()], the best detection returned by [process_image]
    ([None], or a dictionary whose ['confidence'] key may be missing), and
    the key code returned by [cv2.waitKey(1)]. *)
Record Frame := mkFrame {
  frame_read : bool;
  best_detection : option (option Q);
  key : Z
}.

(** The source of a stream: its name, whether it opens, and what the n-th
    iteration of the loop gets. *)
Record VideoEnv := mkVideoEnv {
  source : string;
  is_opened : bool;
  frames : nat → Frame
}.

(** What [start_stream] does that can be seen from outside. *)
Inductive VideoEvent :=
  | VideoError (text : string)      (* log.error *)
  | DrawDetection (i : nat)         (* image_processor._draw_detection on frame i *)
  | ShowFrame (i : nat)             (* cv2.imshow on frame i *)
  | Release                         (* video_capture.release() *)
  | DestroyAllWindows.              (* cv2.destroyAllWindows() *)

(** [best_detection is not None and best_detection.get('confidence', 0) > 0]. *)
Definition draws (f : Frame) : bool :=
  match best_detection f with
  | Some c => if Qlt_le_dec 0 (default 0%Q c) then true else false
  | None => false
  end.

(** [cv2.waitKey(1) & 0xFF == ord('q')]. *)
Definition quits (f : Frame) : bool := Z.eqb (Z.land (key f) 255) 113.

(** The [while True] loop of [start_stream] from its i-th iteration on;
    [None] when the model runs out of fuel. *)
Fixpoint stream_loop (env : VideoEnv) (fuel i : nat) (trace : list VideoEvent)
  : option (list VideoEvent) :=
  match fuel with
  | O => None
  | S fuel' =>
      let f := frames env i in
      if negb (frame_read f) then
        Some (trace ++ [VideoError "Failed to capture frame from video stream."])
      else
        let trace' := trace ++ (if draws f then [DrawDetection i] else []) ++ [ShowFrame i] in
        if quits f then Some trace' else stream_loop env fuel' (S i) trace'
  end.

(** [start_stream]: its result and what it did. *)
Definition start_stream (env : VideoEnv) (fuel : nat) : option (bool * list VideoEvent) :=
  if negb (is_opened env) then
    Some (false, [VideoError ("Error opening video stream or file: " +:+ source env)])
  else
    match stream_loop env fuel 0 [] with
    | Some trace => Some (true, trace ++ [Release; DestroyAllWindows])
    | None => None
    end.

(** * Vocabulary of the statements *)

(** The world [w] with its log replaced. *)
Definition set_log (l : list LogRecord) (w : World) : World :=
  mkWorld (scan_results w) (scan_callback w) (movement_status w) (safety_status w)
          (sent w) (closes w) l.

(** [logged w w']: [w'] is [w] with more (or other) log records. *)
Definition logged (w w' : World) : Prop := ∃ l, w' = set_log l w.

(** An event whose class is present and not empty. *)
Definition classed (data : DetectionEvent) : bool := truthy (ev_class data).

(** The zone a class is given, as a total function. *)
Definition zone_of (cls : string) : PlacementZone :=
  default (mkZone 270 200) (placement_zones !! lower cls).

(** The provisional record built from an event. *)
Definition provisional_of (data : DetectionEvent) : Provisional :=
  mkProvisional (default 0 (ev_angle data)) (default 0 (ev_distance data))
                (default "default" (ev_class data))
                (default 0%Q (ev_confidence data))
                (default "" (ev_image_path data))
                (zone_of (default "default" (ev_class data))).

(** The finalized record with index [i] built from a provisional one. *)
Definition finalize (i : Z) (p : Provisional) : Scanned :=
  mkScanned i (position_angle p) (position_distance p) (detection_class p)
            (detection_confidence p) (provisional_zone p).

(** Provisional records finalized with consecutive indices from [i] on. *)
Fixpoint finalize_from (i : Z) (ps : list Provisional) : list Scanned :=
  match ps with
  | [] => []
  | p :: rest => finalize i p :: finalize_from (i + 1) rest
  end.

(** The catalog expected from the events of one scan window: the classed
    events, in arrival order, numbered from 1. *)
Definition catalog_of (events : list DetectionEvent) : list Scanned :=
  finalize_from 1 (map provisional_of (List.filter classed events)).

(** The world in which [handle_scan_command] waits for the scan to
    complete. *)
Definition scanning (w : World) : World :=
  add_log (Log INFO "scanning in progress...")
    (add_sent (mkMessage "scan_service" (PScan 20))
       (set_scan_callback true (set_scan_results [] w))).

(** [preserves R m]: however [m] ends, the world it ends in is related by
    [R] to the world it started from. *)
Definition preserves {A} (R : World → World → Prop) (m : M A) : Prop :=
  ∀ w, match m w with
       | Ret _ w' | Raise _ w' | Exit _ w' => R w w'
       | OutOfFuel => True
       end.

(** The catalog and the subscription are the same in both worlds. *)
Definition registry_unchanged (w w' : World) : Prop :=
  scan_results w' = scan_results w ∧ scan_callback w' = scan_callback w.

(** The script without the detection events delivered between commands. *)
Fixpoint drop_detections (script : list Step) : list Step :=
  match script with
  | [] => []
  | Detection _ :: rest => drop_detections rest
  | Input line scan pick_place :: rest => Input line scan pick_place :: drop_detections rest
  end.

(** The safety status that the i-th poll of [handle_movement_failure] reads,
    when the status was [s0] at the call: the latest delivery up to that
    poll, or [s0] when there was none. *)
Fixpoint status_at (env : SafetyEnv) (s0 : option string) (i : nat) : option string :=
  match poll_delivery env i with
  | Some s => Some s
  | None =>
      match i with
      | O => s0
      | S j => status_at env s0 j
      end
  end.

(** The status in place just before the delivery of poll [i]. *)
Definition status_before (env : SafetyEnv) (s0 : option string) (i : nat) : option string :=
  match i with
  | O => s0
  | S j => status_at env s0 j
  end.

(** Time elapsed at the i-th evaluation of the loop test. *)
Definition elapsed (env : SafetyEnv) (i : nat) : Q :=
  (poll_time env i - start_time env)%Q.

(** The clock does not run backwards and every [time.sleep(0.5)] lets at
    least half a time unit pass. *)
Definition ticking (env : SafetyEnv) : Prop :=
  (start_time env <= poll_time env 0)%Q ∧
  ∀ i, (poll_time env i + (1 # 2) <= poll_time env (S i))%Q.

(** The message that asks for the safety protocol. *)
Definition safety_request : Message := mkMessage "safety_service" PEmpty.

(** A clock that advances by one time unit per poll, with the transport
    reporting [completed] just before the poll numbered [completed_at]. *)
Definition steady_env (completed_at : option nat) : SafetyEnv :=
  mkSafetyEnv 0%Q
    (λ i, inject_Z (Z.of_nat i))
    (λ i, if decide (completed_at = Some i) then Some "completed" else None).

(** Some poll before the deadline reads [completed], when the status was
    [s0] at the call. *)
Definition completed_observed (env : SafetyEnv) (s0 : option string) : Prop :=
  ∃ i, (elapsed env i < 15)%Q ∧ is_completed (status_at env s0 i) = true.

(** [w'] is [w] after sending exactly [msgs], with further log records and
    possibly other joint statuses; nothing else differs. *)
Definition sends_only (msgs : list Message) (w w' : World) : Prop :=
  sent w' = sent w ++ msgs ∧
  closes w' = closes w ∧
  safety_status w' = safety_status w ∧
  scan_results w' = scan_results w ∧
  ∃ l, log w' = log w ++ l.

(** The log of [w'] extends the log of [w]. *)
Definition log_grows (w w' : World) : Prop := ∃ l, log w' = log w ++ l.

(** The command message of one plan step. *)
Definition step_message (message_type : string) (move : MovementStep) : Message :=
  mkMessage message_type (PStep move).

(** The world after the command of [move] has been sent. *)
Definition step_sent (message_type : string) (move : MovementStep) (w : World) : World :=
  add_sent (step_message message_type move)
    (set_movement_status (<[joint move := "pending"]> (movement_status w))
       (add_log (Log INFO ("movement: " +:+ joint move)) w)).

(** The world in which the failure of [move] has been logged. *)
Definition step_failed (message_type : string) (move : MovementStep) (c : Confirmation)
    (w : World) : World :=
  let w1 := step_sent message_type move w in
  add_log (Log ERROR ("error in movement: movement failed in: " +:+ joint move))
    (match c with
     | Failed => set_movement_status (<[joint move := "failed"]> (movement_status w1)) w1
     | _ => w1
     end).

(** How the waits of a plan end when the step at position [k] (from 0) is
    the first one that is not confirmed. *)
Definition fails_at (k : nat) (c : Confirmation) : nat → Confirmation :=
  λ j, if decide (j = k) then c else Completed.

(** What [select_object_interactively] returns on a finalized catalog when
    the input has not ended: nothing when the line is no integer or reads 0,
    otherwise the first entry with the selected index, if any. *)
Definition selection_of (answer : Answer) (items : list Scanned) : option Scanned :=
  match answer with
  | Integer n => if Z.eqb n 0 then None else List.find (λ x, Z.eqb (index x) n) items
  | NotAnInteger | EndOfInput => None
  end.

(** The finalized catalog of a scan that saw an apple and an object of an
    unmapped class. *)
Definition two_objects : list Scanned :=
  [mkScanned 1 10 100 "apple" 0.9%Q (mkZone 90 200);
   mkScanned 2 20 150 "unknown" 0.9%Q (mkZone 270 200)].

(** A pick and place command in which the user's answer is [a], every step
    is confirmed and the safety status never changes. *)
Definition typed (a : Answer) : PickPlaceEnv :=
  mkPickPlaceEnv a (λ _, Completed) (λ _, Completed) (steady_env None).

(** The environment of a command in which the user's answer is [a]
    instead. *)
Definition with_answer (a : Answer) (env : PickPlaceEnv) : PickPlaceEnv :=
  mkPickPlaceEnv a (pick_confirm env) (place_confirm env) (safety_env env).

(** The user picks object 1; closing the gripper is never confirmed; the
    safety status turns [completed] at time 10. *)
Definition gripper_stuck (completed_at : option nat) : PickPlaceEnv :=
  mkPickPlaceEnv (Integer 1) (fails_at 2 TimedOut) (λ _, Completed)
                 (steady_env completed_at).

(** A scan that completes after two classed detections. *)
Definition scan_two : ScanEnv :=
  mkScanEnv [detection "apple" 10 100; detection "unknown" 20 150] true.

(** Every wait of the first [n] steps of a plan ends with a confirmation. *)
Definition all_confirmed (confirm : nat → Confirmation) (n : nat) : Prop :=
  ∀ j, (j < n)%nat → confirm j = Completed.

(** The step at position [k] (from 0) is the first one that is not
    confirmed. *)
Definition first_failure (confirm : nat → Confirmation) (k : nat) : Prop :=
  all_confirmed confirm k ∧ confirm k ≠ Completed.

(** [w'] is [w] after sending exactly [msgs]: nothing was closed, and the
    safety status and the catalog are the same. *)
Definition transmits (msgs : list Message) (w w' : World) : Prop :=
  sent w' = sent w ++ msgs ∧
  closes w' = closes w ∧
  safety_status w' = safety_status w ∧
  scan_results w' = scan_results w.

(** [m] ends, and it has closed the transport only if it ends in
    [SystemExit]: then the code is 1 and [close] was called once. *)
Definition closes_only_to_exit {A} (m : M A) : Prop :=
  ∀ w, match m w with
       | Ret _ w' | Raise _ w' => closes w' = closes w
       | Exit c w' => c = 1 ∧ closes w' = S (closes w)
       | OutOfFuel => False
       end.

(** The clock ticks during every pick and place command of the script. *)
Definition script_ticking (script : list Step) : Prop :=
  ∀ line scan pick_place,
    In (Input line scan pick_place) script → ticking (safety_env pick_place).

(** What the loop of [start_stream] does with a frame that was read. *)
Definition frame_events (env : VideoEnv) (i : nat) : list VideoEvent :=
  (if draws (frames env i) then [DrawDetection i] else []) ++ [ShowFrame i].

(** The loop goes on after iteration [i]: the frame was read and the key
    pressed, if any, is not [q]. *)
Definition continues (env : VideoEnv) (i : nat) : Prop :=
  frame_read (frames env i) = true ∧ quits (frames env i) = false.

(** What the last iteration of the loop does. *)
Definition last_events (env : VideoEnv) (n : nat) : list VideoEvent :=
  if frame_read (frames env n) then frame_events env n
  else [VideoError "Failed to capture frame from video stream."].

(** Three frames: an apple seen with confidence 0.8, nothing seen, then a
    detection without confidence while the user presses [q]. *)
Definition three_frames : VideoEnv :=
  mkVideoEnv "0" true
    (λ i, match i with
          | 0%nat => mkFrame true (Some (Some 0.8%Q)) (-1)
          | 1%nat => mkFrame true None (-1)
          | _ => mkFrame true (Some None) 113
          end).

(** * Properties *)

(** ** The embedding at work *)

Example zone_apple : _get_placement_zones "Apple" = Some (mkZone 90 200).
Proof. vm_compute. reflexivity. Qed.

Example zone_unknown : _get_placement_zones "cup" = Some (mkZone 270 200).
Proof. vm_compute. reflexivity. Qed.

Example scenario_A :
  scan_results <$> result_world
     (handle_scan_command
        (mkScanEnv [detection "apple" 10 100; no_class 5 5; detection "unknown" 20 150] true)
        Robot_init)
  = Some [Item (mkScanned 1 10 100 "apple" 0.9%Q (mkZone 90 200));
          Item (mkScanned 2 20 150 "unknown" 0.9%Q (mkZone 270 200))].
Proof. vm_compute. reflexivity. Qed.

(** ** ZoneMapper *)

Section ZoneMapper.

Lemma lower_ascii_idem (c : ascii) : lower_ascii (lower_ascii c) = lower_ascii c.
Proof. destruct c as [[] [] [] [] [] [] [] []]; reflexivity. Qed.

Lemma lower_idem (s : string) : lower (lower s) = lower s.
Proof.
  induction s as [|c s IH]; simpl; [reflexivity|].
  rewrite lower_ascii_idem, IH. reflexivity.
Qed.

(** The lookup only looks at the lower-case form of its argument. *)
Lemma zones_get_lower (zones : gmap string PlacementZone) (s : string) :
  zones_get zones (lower s) = zones_get zones s.
Proof. unfold zones_get. rewrite lower_idem. reflexivity. Qed.

Lemma placement_zones_default :
  placement_zones !! "default" = Some (mkZone 270 200).
Proof. reflexivity. Qed.

(** A key other than the three mapped classes finds nothing, or the
    default entry itself. *)
Lemma placement_zones_unmapped (k : string) :
  k ≠ "apple" → k ≠ "orange" → k ≠ "bottle" →
  default (mkZone 270 200) (placement_zones !! k) = mkZone 270 200.
Proof.
  intros Ha Ho Hb. unfold placement_zones.
  rewrite !lookup_insert_ne by congruence.
  destruct (decide (k = "default")) as [->|Hd].
  - rewrite lookup_insert_eq. reflexivity.
  - rewrite lookup_insert_ne by congruence. rewrite lookup_empty. reflexivity.
Qed.

End ZoneMapper.

(** C7: the zone lookup [_get_placement_zones] is total (it returns a zone
    for every string and never raises), it is case-insensitive (the result
    depends only on the lower-case form of the class, so "Apple" and "apple"
    get the same zone), and every class whose lower-case form is not one of
    the mapped classes, the empty string included, gets the default zone
    {angle: 270, distance: 200}. *)
Theorem zone_lookup_total_case_insensitive_default :
  (∀ s : string, ∃ z, _get_placement_zones s = Some z) ∧
  (∀ s t : string, lower s = lower t → _get_placement_zones s = _get_placement_zones t) ∧
  _get_placement_zones "Apple" = _get_placement_zones "apple" ∧
  (∀ s : string,
     lower s ≠ "apple" → lower s ≠ "orange" → lower s ≠ "bottle" →
     _get_placement_zones s = Some (mkZone 270 200)) ∧
  _get_placement_zones "" = Some (mkZone 270 200).
Proof.
  unfold _get_placement_zones.
  split; [|split; [|split; [|split]]].
  - intros s. unfold zones_get. rewrite placement_zones_default. eauto.
  - intros s t Hst. rewrite <- (zones_get_lower _ s), <- (zones_get_lower _ t), Hst.
    reflexivity.
  - reflexivity.
  - intros s Ha Ho Hb. unfold zones_get. rewrite placement_zones_default.
    f_equal. apply placement_zones_unmapped; assumption.
  - reflexivity.
Qed.

(** The lookup at an unmapped, mixed-case class. *)
Lemma zone_lookup_witness :
  lower "Cup" = lower "cUP" ∧
  _get_placement_zones "Cup" = _get_placement_zones "cUP" ∧
  _get_placement_zones "Cup" = Some (mkZone 270 200).
Proof.
  pose proof zone_lookup_total_case_insensitive_default as (_ & Hci & _ & Hdef & _).
  split; [reflexivity|]. split.
  - apply Hci. reflexivity.
  - apply Hdef; discriminate.
Defined.

(** ** Worlds that differ in their log only *)

Lemma logged_refl (w : World) : logged w w.
Proof. exists (log w). destruct w; reflexivity. Qed.

Lemma logged_trans (w1 w2 w3 : World) : logged w1 w2 → logged w2 w3 → logged w1 w3.
Proof. intros [l1 ->] [l2 ->]. exists l2. reflexivity. Qed.

Lemma logged_add_log (r : LogRecord) (w : World) : logged w (add_log r w).
Proof. exists (log w ++ [r]). reflexivity. Qed.

Lemma logged_set_scan_results (l : list Entry) (w w' : World) :
  logged w w' → logged (set_scan_results l w) (set_scan_results l w').
Proof. intros [lg ->]. exists lg. reflexivity. Qed.

Create HintDb world discriminated.
#[local] Hint Resolve logged_refl logged_add_log logged_set_scan_results : world.

(** ** ObjectRegistry *)

Section ObjectRegistry.

Lemma _get_placement_zones_zone_of (cls : string) :
  _get_placement_zones cls = Some (zone_of cls).
Proof. reflexivity. Qed.

Lemma _update_object_registry_appends (data : DetectionEvent) (w : World) :
  _update_object_registry data w =
  Ret tt (set_scan_results (scan_results w ++ [Raw (provisional_of data)]) w).
Proof. reflexivity. Qed.

Lemma deliver_unclassed (data : DetectionEvent) (w : World) :
  classed data = false → deliver data w = Ret tt w.
Proof.
  intros Hc. unfold deliver, bind, get_world, _scan_callback.
  unfold classed in Hc. rewrite Hc. destruct (scan_callback w); reflexivity.
Qed.

Lemma deliver_unsubscribed (data : DetectionEvent) (w : World) :
  scan_callback w = false → deliver data w = Ret tt w.
Proof. intros Hc. unfold deliver, bind, get_world. rewrite Hc. reflexivity. Qed.

Lemma deliver_classed (data : DetectionEvent) (w : World) :
  scan_callback w = true → classed data = true →
  deliver data w =
  Ret tt (set_scan_results (scan_results w ++ [Raw (provisional_of data)]) w).
Proof.
  intros Hs Hc. unfold deliver, bind, get_world, _scan_callback.
  unfold classed in Hc. rewrite Hs, Hc. apply _update_object_registry_appends.
Qed.

(** Delivering a batch to a subscribed registry appends the provisional
    records of its classed events, in order, and touches nothing else. *)
Lemma deliver_all_subscribed (events : list DetectionEvent) :
  ∀ w, scan_callback w = true →
    deliver_all events w =
    Ret tt (set_scan_results
              (scan_results w ++ map Raw (map provisional_of (List.filter classed events))) w).
Proof.
  induction events as [|data events IH]; intros w Hs; simpl.
  - rewrite app_nil_r. destruct w; reflexivity.
  - unfold bind. destruct (classed data) eqn:Hc.
    + rewrite deliver_classed by assumption.
      rewrite IH by exact Hs. simpl. rewrite <- app_assoc. reflexivity.
    + rewrite deliver_unclassed by assumption. apply IH, Hs.
Qed.

(** Finalizing provisional records numbers them from [i] on and only
    writes log records. *)
Lemma process_entries_raw (ps : list Provisional) :
  ∀ i acc w, ∃ w',
    process_entries i (map Raw ps) acc w = Ret (acc ++ map Item (finalize_from i ps)) w' ∧
    logged w w'.
Proof.
  induction ps as [|p ps IH]; intros i acc w; simpl.
  - exists w. rewrite app_nil_r. auto with world.
  - unfold bind, modify.
    destruct (IH (i + 1) (acc ++ [Item (finalize i p)]) (add_log (LogObj (finalize i p)) w))
      as (w' & Hrun & Hlog).
    exists w'. split.
    + unfold finalize in Hrun |- *. rewrite Hrun.
      rewrite <- app_assoc. reflexivity.
    + eapply logged_trans; [apply logged_add_log | exact Hlog].
Qed.

Lemma finalize_from_length (ps : list Provisional) :
  ∀ i, length (finalize_from i ps) = length ps.
Proof. induction ps as [|p ps IH]; intros i; simpl; [|rewrite IH]; reflexivity. Qed.

Lemma finalize_from_lookup (ps : list Provisional) :
  ∀ i k, finalize_from i ps !! k = finalize (i + Z.of_nat k) <$> ps !! k.
Proof.
  induction ps as [|p ps IH]; intros i k; [reflexivity|].
  destruct k as [|k]; simpl.
  - rewrite Z.add_0_r. reflexivity.
  - rewrite IH. do 2 f_equal. lia.
Qed.

Lemma finalize_from_index (ps : list Provisional) :
  ∀ i, map index (finalize_from i ps) =
       map (λ k, i + Z.of_nat k) (seq 0 (length ps)).
Proof.
  induction ps as [|p ps IH]; intros i; simpl; [reflexivity|].
  rewrite Z.add_0_r, IH. f_equal.
  rewrite <- seq_shift, map_map. apply map_ext. intros k. lia.
Qed.

End ObjectRegistry.

Section ScanCommand.

Lemma logged_set_scan_callback (b : bool) (w w' : World) :
  logged w w' → logged (set_scan_callback b w) (set_scan_callback b w').
Proof. intros [lg ->]. exists lg. reflexivity. Qed.

Lemma handle_scan_command_unfold (env : ScanEnv) (w : World) :
  handle_scan_command env w =
  ((let! signalled := scan_complete_wait env in
    (if signalled then process_scan_results else log_error "scanning timeout") >>
    register_callback false) (scanning w)).
Proof. reflexivity. Qed.

Lemma scan_complete_wait_scanning (env : ScanEnv) (w : World) :
  scan_complete_wait env (scanning w) =
  Ret (scan_signalled env)
      (set_scan_results (map Raw (map provisional_of (List.filter classed (scan_events env))))
                        (scanning w)).
Proof.
  unfold scan_complete_wait, bind.
  rewrite deliver_all_subscribed by reflexivity. reflexivity.
Qed.

Lemma process_scan_results_raw (ps : list Provisional) (w : World) :
  scan_results w = map Raw ps →
  ∃ w', process_scan_results w = Ret tt w' ∧
        logged (set_scan_results (map Item (finalize_from 1 ps)) w) w'.
Proof.
  intros Hraw. unfold process_scan_results, bind, get_world. rewrite Hraw.
  destruct ps as [|p ps].
  - exists (add_log (Log WARNING "scanning completed without object detection") w).
    split; [reflexivity|].
    exists (log w ++ [Log WARNING "scanning completed without object detection"]).
    simpl. unfold set_scan_results, set_log, add_log. simpl. rewrite Hraw. reflexivity.
  - set (w0 := add_log (LogObjectsScanned (length (map Raw (p :: ps)))) w).
    destruct (process_entries_raw (p :: ps) 1 [] w0) as (w1 & Hrun & [lg Hlg]).
    exists (set_scan_results (map Item (finalize_from 1 (p :: ps))) w1). split.
    + change (map Raw (p :: ps)) with (Raw p :: map Raw ps) in *.
      cbv beta iota. unfold modify at 1. fold w0. rewrite Hrun. reflexivity.
    + subst w1. exists lg. reflexivity.
Qed.

(** The scan-complete path: the catalog is finalized, the subscription is
    dropped, one scan command has been sent. *)
Lemma handle_scan_command_complete (events : list DetectionEvent) (w : World) :
  ∃ w', handle_scan_command (mkScanEnv events true) w = Ret tt w' ∧
        logged (set_scan_callback false
                  (add_sent (mkMessage "scan_service" (PScan 20))
                     (set_scan_results (map Item (catalog_of events)) w))) w'.
Proof.
  rewrite handle_scan_command_unfold. unfold bind at 1.
  rewrite scan_complete_wait_scanning. simpl scan_signalled. simpl scan_events.
  unfold catalog_of.
  set (ps := map provisional_of (List.filter classed events)).
  destruct (process_scan_results_raw ps (set_scan_results (map Raw ps) (scanning w)))
    as (w1 & Hrun & [lg ->]); [reflexivity|].
  eexists. split.
  - unfold bind. rewrite Hrun. reflexivity.
  - exists lg. reflexivity.
Qed.

(** The timeout path: the provisional records collected so far stay in
    [scan_results], neither finalized nor cleared. *)
Lemma handle_scan_command_timeout (events : list DetectionEvent) (w : World) :
  ∃ w', handle_scan_command (mkScanEnv events false) w = Ret tt w' ∧
        logged (set_scan_callback false
                  (add_sent (mkMessage "scan_service" (PScan 20))
                     (set_scan_results
                        (map Raw (map provisional_of (List.filter classed events))) w))) w'.
Proof.
  rewrite handle_scan_command_unfold. unfold bind at 1.
  rewrite scan_complete_wait_scanning. simpl scan_signalled. simpl scan_events.
  eexists. split; [reflexivity|]. eexists. reflexivity.
Qed.

(** Whatever happens during the scan, the command returns with the
    detection subscription dropped. *)
Lemma handle_scan_command_unsubscribes (env : ScanEnv) (w : World) :
  ∃ w', handle_scan_command env w = Ret tt w' ∧ scan_callback w' = false.
Proof.
  destruct env as [events [|]].
  - destruct (handle_scan_command_complete events w) as (w' & Hrun & [lg ->]).
    exists (set_log lg
              (set_scan_callback false
                 (add_sent (mkMessage "scan_service" (PScan 20))
                    (set_scan_results (map Item (catalog_of events)) w)))).
    split; [exact Hrun | reflexivity].
  - destruct (handle_scan_command_timeout events w) as (w' & Hrun & [lg ->]).
    eexists. split; [exact Hrun | reflexivity].
Qed.

End ScanCommand.

(** C2: for every sequence of detection events delivered during one scan
    window that ends with the scan-complete signal, whatever the state the
    scan starts from: an event whose class is missing or empty is dropped
    without any trace (the world is unchanged, nothing is logged), and the
    finalized catalog has as many entries as there are events with a
    non-empty class, its indices are exactly 1..n, and its k-th entry is
    built from the k-th such event in arrival order. *)
Theorem scan_catalog_counts_classed_events (events : list DetectionEvent) (w : World) :
  (∀ data w0, classed data = false → deliver data w0 = Ret tt w0) ∧
  ∃ w', handle_scan_command (mkScanEnv events true) w = Ret tt w' ∧
        scan_results w' = map Item (catalog_of events) ∧
        length (scan_results w') = length (List.filter classed events) ∧
        map index (catalog_of events) =
          map Z.of_nat (seq 1 (length (List.filter classed events))) ∧
        (∀ k : nat,
           catalog_of events !! k =
           (λ data, finalize (Z.of_nat k + 1) (provisional_of data))
             <$> List.filter classed events !! k).
Proof.
  split; [apply deliver_unclassed|].
  destruct (handle_scan_command_complete events w) as (w' & Hrun & [lg ->]).
  eexists. split; [exact Hrun|].
  split; [reflexivity|].
  split; [|split].
  - cbn [scan_results set_log set_scan_callback add_sent set_scan_results].
    unfold catalog_of. rewrite !length_map, finalize_from_length, length_map.
    reflexivity.
  - unfold catalog_of. rewrite finalize_from_index, length_map.
    rewrite <- seq_shift, map_map. apply map_ext. intros k. lia.
  - intros k. unfold catalog_of. rewrite finalize_from_lookup.
    rewrite list_lookup_fmap.
    destruct (List.filter classed events !! k); simpl; [|reflexivity].
    do 2 f_equal. lia.
Qed.

(** A scan with unclassified events interleaved, started from a robot that
    still holds an older catalog. *)
Lemma scan_catalog_witness :
  classed (no_class 5 5) = false ∧
  ∃ w', handle_scan_command
          (mkScanEnv [no_class 1 1; detection "apple" 10 100; empty_class 5 5;
                      detection "Bottle" 20 150; no_class 7 7] true)
          (set_scan_results [Item (mkScanned 1 0 0 "orange" 0%Q (mkZone 180 200))] Robot_init)
        = Ret tt w' ∧
        scan_results w' =
          [Item (mkScanned 1 10 100 "apple" 0.9%Q (mkZone 90 200));
           Item (mkScanned 2 20 150 "Bottle" 0.9%Q (mkZone 45 200))].
Proof.
  split; [reflexivity|].
  destruct (scan_catalog_counts_classed_events
              [no_class 1 1; detection "apple" 10 100; empty_class 5 5;
               detection "Bottle" 20 150; no_class 7 7]
              (set_scan_results [Item (mkScanned 1 0 0 "orange" 0%Q (mkZone 180 200))]
                                Robot_init))
    as (_ & w' & Hrun & Hcat & _).
  exists w'. split; [exact Hrun|]. rewrite Hcat. vm_compute. reflexivity.
Defined.

(** C3 (the code departs from the claim): a scan during which one classed
    event arrives and the scan-complete signal does not. The command logs
    the timeout and drops the subscription, but [scan_results] keeps the
    provisional record instead of being reset; the next pick and place
    command then passes the emptiness guard and fails with [KeyError] on the
    record's missing ['index']. *)
Theorem scan_timeout_keeps_partial_catalog :
  ∃ w', handle_scan_command (mkScanEnv [detection "apple" 10 100] false) Robot_init
        = Ret tt w' ∧
        scan_results w' = [Raw (provisional_of (detection "apple" 10 100))] ∧
        scan_callback w' = false ∧
        log w' = [Log INFO "scanning in progress..."; Log ERROR "scanning timeout"] ∧
        ∀ env fuel, ∃ w'', handle_pick_place_command env fuel w' = Raise (KeyError "index") w''.
Proof.
  eexists. split; [reflexivity|].
  split; [reflexivity|]. split; [reflexivity|]. split; [reflexivity|].
  intros env fuel. eexists. reflexivity.
Qed.

(** ** Relations that every step of a computation preserves *)

Section Preservation.

Variable R : World → World → Prop.
Hypothesis R_refl : ∀ w, R w w.
Hypothesis R_trans : ∀ w1 w2 w3, R w1 w2 → R w2 w3 → R w1 w3.

Lemma preserves_ret {A} (a : A) : preserves R (ret a).
Proof. intros w. apply R_refl. Qed.

Lemma preserves_raise {A} (e : Exn) : preserves R (@raise A e).
Proof. intros w. apply R_refl. Qed.

Lemma preserves_exit {A} (c : Z) : preserves R (@exit A c).
Proof. intros w. apply R_refl. Qed.

Lemma preserves_get_world : preserves R get_world.
Proof. intros w. apply R_refl. Qed.

Lemma preserves_modify (f : World → World) :
  (∀ w, R w (f w)) → preserves R (modify f).
Proof. intros Hf w. apply Hf. Qed.

Lemma preserves_bind {A B} (m : M A) (k : A → M B) :
  preserves R m → (∀ a, preserves R (k a)) → preserves R (bind m k).
Proof.
  intros Hm Hk w. unfold bind. specialize (Hm w).
  destruct (m w) as [a w1|e w1|c w1|]; try assumption.
  specialize (Hk a w1).
  destruct (k a w1); try exact I; eapply R_trans; eassumption.
Qed.

Lemma preserves_try_except {A} (m : M A) (h : Exn → M A) :
  preserves R m → (∀ e, preserves R (h e)) → preserves R (try_except m h).
Proof.
  intros Hm Hh w. unfold try_except. specialize (Hm w).
  destruct (m w) as [a w1|e w1|c w1|]; try assumption.
  specialize (Hh e w1).
  destruct (h e w1); try exact I; eapply R_trans; eassumption.
Qed.

Lemma preserves_try_except_ValueError {A} (m h : M A) :
  preserves R m → preserves R h → preserves R (try_except_ValueError m h).
Proof.
  intros Hm Hh w. unfold try_except_ValueError. specialize (Hm w).
  destruct (m w) as [a w1|e w1|c w1|]; try assumption.
  destruct e; try assumption.
  specialize (Hh w1).
  destruct (h w1); try exact I; eapply R_trans; eassumption.
Qed.

Lemma preserves_try_finally {A} (m : M A) (f : M unit) :
  preserves R m → preserves R f → preserves R (try_finally m f).
Proof.
  intros Hm Hf w. unfold try_finally, bind. specialize (Hm w).
  destruct (m w) as [a w1|e w1|c w1|]; try exact I;
    specialize (Hf w1); destruct (f w1); simpl; try exact I;
    eapply R_trans; eassumption.
Qed.

End Preservation.

(** ** Running a bind whose first part is known *)

Lemma bind_Ret {A B} (m : M A) (k : A → M B) w a w' :
  m w = Ret a w' → bind m k w = k a w'.
Proof. intros Hm. unfold bind. rewrite Hm. reflexivity. Qed.

(** Two continuations that agree on what [m] returns give the same
    computation. *)
Lemma bind_ext_on {A B} (m : M A) (k k' : A → M B) w :
  (∀ a w', m w = Ret a w' → k a w' = k' a w') → bind m k w = bind m k' w.
Proof. intros Hk. unfold bind. destruct (m w); auto. Qed.

Lemma bind_Raise {A B} (m : M A) (k : A → M B) w e w' :
  m w = Raise e w' → bind m k w = Raise e w'.
Proof. intros Hm. unfold bind. rewrite Hm. reflexivity. Qed.

(** The pick and place command changes the world only by logging, sending,
    writing joint and safety status and closing the transport: a relation
    that those five updates respect is preserved by the whole command. *)
Section PickPlaceFootprint.

Variable R : World → World → Prop.
Hypothesis R_refl : ∀ w, R w w.
Hypothesis R_trans : ∀ w1 w2 w3, R w1 w2 → R w2 w3 → R w1 w3.
Hypothesis R_log : ∀ r w, R w (add_log r w).
Hypothesis R_sent : ∀ m w, R w (add_sent m w).
Hypothesis R_movement : ∀ m w, R w (set_movement_status m w).
Hypothesis R_safety : ∀ s w, R w (set_safety_status s w).
Hypothesis R_close : ∀ w, R w (add_close w).

Lemma preserves_log_info text : preserves R (log_info text).
Proof. apply preserves_modify. intros; apply R_log. Qed.

Lemma preserves_log_error text : preserves R (log_error text).
Proof. apply preserves_modify. intros; apply R_log. Qed.

Lemma preserves_log_warning text : preserves R (log_warning text).
Proof. apply preserves_modify. intros; apply R_log. Qed.

Lemma preserves_print text : preserves R (print text).
Proof. apply preserves_modify. intros; apply R_log. Qed.

Lemma preserves_send_message tag data : preserves R (send_message tag data).
Proof. apply preserves_modify. intros; apply R_sent. Qed.

Lemma preserves_close : preserves R close.
Proof. apply preserves_modify. exact R_close. Qed.

(** Decompose a goal along the structure of the computation. *)
Ltac footprint :=
  repeat match goal with
  | |- preserves _ (ret _) => apply preserves_ret; assumption
  | |- preserves _ (raise _) => apply preserves_raise; assumption
  | |- preserves _ (exit _) => apply preserves_exit; assumption
  | |- preserves _ get_world => apply preserves_get_world; assumption
  | |- preserves _ (log_info _) => apply preserves_log_info
  | |- preserves _ (log_error _) => apply preserves_log_error
  | |- preserves _ (log_warning _) => apply preserves_log_warning
  | |- preserves _ (print _) => apply preserves_print
  | |- preserves _ (send_message _ _) => apply preserves_send_message
  | |- preserves _ close => apply preserves_close
  | |- preserves _ (modify _) => apply preserves_modify; intros; auto
  | |- preserves _ (bind _ _) => apply preserves_bind; [assumption | | intros]
  | |- preserves _ (try_except _ _) =>
      apply preserves_try_except; [assumption | | intros]
  | |- preserves _ (try_except_ValueError _ _) =>
      apply preserves_try_except_ValueError; [assumption | | ]
  | |- preserves _ (if ?b then _ else _) => destruct b
  | |- preserves _ (match ?o with Some _ => _ | None => _ end) => destruct o
  | |- preserves _ (match ?a with
                    | EndOfInput => _ | NotAnInteger => _ | Integer _ => _
                    end) => destruct a
  end.

Lemma preserves_wait_for_confirmation c j : preserves R (wait_for_confirmation c j).
Proof. destruct c; unfold wait_for_confirmation; footprint. Qed.

Lemma preserves_safety_poll env fuel : ∀ i, preserves R (safety_poll env fuel i).
Proof.
  induction fuel as [|fuel IH]; intros i; cbn [safety_poll].
  - intros w. exact I.
  - unfold safety_delivery. footprint. apply IH.
Qed.

Lemma preserves_handle_movement_failure env fuel :
  preserves R (handle_movement_failure env fuel).
Proof. unfold handle_movement_failure. footprint. apply preserves_safety_poll. Qed.

Lemma preserves_execute_steps tag moves confirm env fuel :
  ∀ k, preserves R (execute_steps tag moves confirm k env fuel).
Proof.
  induction moves as [|move moves IH]; intros k; cbn [execute_steps]; footprint.
  - apply preserves_wait_for_confirmation.
  - apply preserves_handle_movement_failure.
  - apply IH.
Qed.

Lemma preserves_execute_movement tag moves confirm env fuel :
  preserves R (execute_movement tag moves confirm env fuel).
Proof. unfold execute_movement. footprint. apply preserves_execute_steps. Qed.

Lemma preserves_print_listing objs : preserves R (print_listing objs).
Proof.
  induction objs as [|[p|o] objs IH]; cbn [print_listing]; footprint. exact IH.
Qed.

Lemma preserves_find_index selection objs : preserves R (find_index selection objs).
Proof.
  induction objs as [|[p|o] objs IH]; cbn [find_index]; footprint. exact IH.
Qed.

Lemma preserves_select_object_interactively answer :
  preserves R (select_object_interactively answer).
Proof.
  unfold select_object_interactively. footprint.
  - apply preserves_print_listing.
  - apply preserves_find_index.
Qed.

Lemma preserves_execute_pick_sequence obj confirm env fuel :
  preserves R (execute_pick_sequence obj confirm env fuel).
Proof. unfold execute_pick_sequence. footprint. apply preserves_execute_movement. Qed.

Lemma preserves_execute_place_sequence obj confirm env fuel :
  preserves R (execute_place_sequence obj confirm env fuel).
Proof. unfold execute_place_sequence. footprint. apply preserves_execute_movement. Qed.

Lemma preserves_handle_pick_place_command env fuel :
  preserves R (handle_pick_place_command env fuel).
Proof.
  unfold handle_pick_place_command. footprint.
  - apply preserves_select_object_interactively.
  - apply preserves_execute_pick_sequence.
  - apply preserves_execute_place_sequence.
Qed.

End PickPlaceFootprint.

(** ** Lifetime of the detection subscription *)

Section Subscription.

Lemma registry_unchanged_refl w : registry_unchanged w w.
Proof. split; reflexivity. Qed.

Lemma registry_unchanged_trans w1 w2 w3 :
  registry_unchanged w1 w2 → registry_unchanged w2 w3 → registry_unchanged w1 w3.
Proof. intros [H1 H2] [H3 H4]. split; congruence. Qed.

(** The pick and place command never touches the catalog or the
    subscription, however it ends. *)
Lemma handle_pick_place_command_registry env fuel :
  preserves registry_unchanged (handle_pick_place_command env fuel).
Proof.
  apply preserves_handle_pick_place_command;
    first [ apply registry_unchanged_refl
          | apply registry_unchanged_trans
          | intros; split; reflexivity ].
Qed.

Lemma print_menu_logged w : ∃ w', print_menu w = Ret tt w' ∧ logged w w'.
Proof. eexists. split; [reflexivity|]. eexists. reflexivity. Qed.

(** No command of the menu leaves a subscription behind when it starts
    without one, so the events delivered between commands are lost. *)
Lemma main_menu_loop_ignores_detections fuel script :
  ∀ w, scan_callback w = false →
    main_menu_loop fuel script w = main_menu_loop fuel (drop_detections script) w.
Proof.
  induction script as [|[line scan pick_place|data] script IH]; intros w Hw;
    cbn [main_menu_loop drop_detections]; [reflexivity| |].
  - destruct (print_menu_logged w) as (w0 & Hmenu & [lg ->]).
    rewrite !(bind_Ret _ _ _ _ _ Hmenu).
    repeat match goal with
           | |- context [if String.eqb ?a ?b then _ else _] => destruct (String.eqb a b)
           end; try reflexivity;
      apply bind_ext_on; intros [] w1 Hcmd; apply IH.
    + inversion Hcmd. exact Hw.
    + inversion Hcmd. exact Hw.
    + destruct (handle_scan_command_unsubscribes scan (set_log lg w)) as (w2 & Hrun & Hw2).
      congruence.
    + pose proof (handle_pick_place_command_registry pick_place fuel (set_log lg w)) as Hpp.
      rewrite Hcmd in Hpp. destruct Hpp as [_ ->]. exact Hw.
    + inversion Hcmd. exact Hw.
  - rewrite (bind_Ret _ _ _ _ _ (deliver_unsubscribed data w Hw)). apply IH, Hw.
Qed.

End Subscription.

(** C6 as the code has it: the constructor subscribes [_scan_callback], every
    scan command subscribes it again and returns with the subscription
    dropped, and without a subscription a delivered detection event changes
    nothing: from a world without subscription, the menu loop behaves exactly
    as if the detection events delivered between its commands had never been
    sent. Events are therefore recorded from construction until the end of
    the first scan command, and afterwards only inside a scan command. *)
Theorem detections_recorded_only_while_subscribed :
  scan_callback Robot_init = true ∧
  (∀ env w, ∃ w', handle_scan_command env w = Ret tt w' ∧ scan_callback w' = false) ∧
  (∀ data w, scan_callback w = true → classed data = true →
     deliver data w =
     Ret tt (set_scan_results (scan_results w ++ [Raw (provisional_of data)]) w)) ∧
  (∀ data w, scan_callback w = false → deliver data w = Ret tt w) ∧
  (∀ fuel script w, scan_callback w = false →
     main_menu_loop fuel script w = main_menu_loop fuel (drop_detections script) w).
Proof.
  split; [reflexivity|]. split; [|split; [|split]].
  - apply handle_scan_command_unsubscribes.
  - apply deliver_classed.
  - apply deliver_unsubscribed.
  - intros fuel script w. apply main_menu_loop_ignores_detections.
Qed.

(** A session in which an event arrives after a timed-out scan and before
    the user quits: it leaves no trace. *)
Lemma detections_recorded_witness :
  ∃ w1, handle_scan_command (mkScanEnv [] false) Robot_init = Ret tt w1 ∧
        scan_callback w1 = false ∧
        deliver (detection "apple" 10 100) w1 = Ret tt w1 ∧
        ∀ pp,
          main_menu_loop 0 [Detection (detection "apple" 10 100);
                            Input "q" (mkScanEnv [] false) pp] w1
          = main_menu_loop 0 [Input "q" (mkScanEnv [] false) pp] w1.
Proof.
  pose proof detections_recorded_only_while_subscribed
    as (_ & Hscan & _ & Hdeliver & Hloop).
  eexists. split; [reflexivity|]. split; [reflexivity|]. split.
  - apply Hdeliver. reflexivity.
  - intros pp. apply (Hloop 0%nat). reflexivity.
Defined.

(** C6 as stated does not hold: right after construction, before any scan
    command has been issued (nothing was ever sent), a delivered detection
    event is appended to the catalog. *)
Lemma detection_before_first_scan_is_recorded :
  sent Robot_init = [] ∧
  ∃ w', deliver (detection "apple" 10 100) Robot_init = Ret tt w' ∧
        sent w' = [] ∧
        scan_results w' = [Raw (provisional_of (detection "apple" 10 100))].
Proof.
  split; [reflexivity|]. eexists. split; [reflexivity|]. split; reflexivity.
Qed.

(** ** SafetyCoordinator *)

Section SafetyCoordinator.

Variable env : SafetyEnv.
Hypothesis Hticking : ticking env.

Lemma elapsed_succ (i : nat) : (elapsed env i + (1 # 2) <= elapsed env (S i))%Q.
Proof. destruct Hticking as [_ Htick]. unfold elapsed. specialize (Htick i). lra. Qed.

Lemma elapsed_mono (i j : nat) : (i ≤ j)%nat → (elapsed env i <= elapsed env j)%Q.
Proof.
  induction 1 as [|j Hle IH]; [lra|].
  pose proof (elapsed_succ j). lra.
Qed.

Lemma elapsed_0 : (0 <= elapsed env 0)%Q.
Proof. destruct Hticking as [H0 _]. unfold elapsed. lra. Qed.

(** The polling loop from its i-th test on: with enough fuel for the time
    that is left, it either returns at the first poll that reads
    [completed] before the deadline, having closed nothing, or it closes the
    transport once and exits with code 1 because no poll before the
    deadline reads [completed].  It sends nothing. *)
Lemma safety_poll_outcome (s0 : option string) :
  ∀ fuel i w,
    (15 <= elapsed env i + (inject_Z (Z.of_nat fuel) - 1) * (1 # 2))%Q →
    (0 < fuel)%nat →
    safety_status w = status_before env s0 i →
    (∀ j, (j < i)%nat → is_completed (status_at env s0 j) = false) →
    (∃ w' n, safety_poll env fuel i w = Ret tt w' ∧
             (elapsed env n < 15)%Q ∧ is_completed (status_at env s0 n) = true ∧
             (∀ j, (j < n)%nat → is_completed (status_at env s0 j) = false) ∧
             closes w' = closes w ∧ sent w' = sent w ∧
             scan_results w' = scan_results w) ∨
    (∃ w', safety_poll env fuel i w = Exit 1 w' ∧
           (∀ n, (elapsed env n < 15)%Q → is_completed (status_at env s0 n) = false) ∧
           closes w' = S (closes w) ∧ sent w' = sent w ∧
           scan_results w' = scan_results w).
Proof.
  induction fuel as [|fuel IH]; intros i w Hfuel Hpos Hstatus Hbefore; [lia|].
  cbn [safety_poll]. fold (elapsed env i).
  destruct (Qlt_le_dec (elapsed env i) 15) as [Hin|Hout].
  - (* the test passes: the transport may deliver, then the status is read *)
    assert (Hread : ∃ w1, safety_delivery (poll_delivery env i) w = Ret tt w1 ∧
                          safety_status w1 = status_at env s0 i ∧
                          closes w1 = closes w ∧ sent w1 = sent w ∧
                          scan_results w1 = scan_results w).
    { unfold safety_delivery.
      destruct i as [|i]; cbn [status_at]; cbn [status_before] in Hstatus;
        destruct (poll_delivery env _); eexists; (split; [reflexivity|]); auto. }
    destruct Hread as (w1 & Hdel & Hs1 & Hc1 & Hm1 & Hr1).
    rewrite (bind_Ret _ _ _ _ _ Hdel).
    rewrite (bind_Ret get_world _ w1 w1 w1 eq_refl). rewrite Hs1.
    destruct (is_completed (status_at env s0 i)) eqn:Hdone.
    + left. eexists. exists i. split; [reflexivity|].
      split; [exact Hin|]. split; [exact Hdone|]. split; [exact Hbefore|].
      cbn. auto.
    + assert (Hfuel' : (15 <= elapsed env (S i) + (inject_Z (Z.of_nat fuel) - 1) * (1 # 2))%Q).
      { pose proof (elapsed_succ i). rewrite Nat2Z.inj_succ in Hfuel.
        unfold Z.succ in Hfuel. rewrite inject_Z_plus in Hfuel.
        change (inject_Z 1) with 1%Q in Hfuel.
        set (q := inject_Z (Z.of_nat fuel)) in *. lra. }
      assert (Hpos' : (0 < fuel)%nat).
      { destruct fuel; [|lia]. change (inject_Z (Z.of_nat 1)) with 1%Q in Hfuel. lra. }
      destruct (IH (S i) w1 Hfuel' Hpos' Hs1) as
        [(w' & n & Hrun & Hn & Hcomp & Hfirst & Hc & Hm & Hr)|(w' & Hrun & Hnone & Hc & Hm & Hr)].
      * intros j Hj. destruct (decide (j = i)) as [->|Hne]; [exact Hdone|].
        apply Hbefore. lia.
      * left. exists w', n.
        split; [exact Hrun|]. split; [exact Hn|]. split; [exact Hcomp|].
        split; [exact Hfirst|]. split; [congruence|]. split; congruence.
      * right. exists w'.
        split; [exact Hrun|]. split; [exact Hnone|]. split; [congruence|].
        split; congruence.
  - (* the deadline has passed *)
    right. eexists. split; [reflexivity|]. split; [|cbn; auto].
    intros n Hn. apply Hbefore.
    destruct (decide (n < i)%nat) as [Hlt|Hge]; [exact Hlt|].
    pose proof (elapsed_mono i n ltac:(lia)). lra.
Qed.

End SafetyCoordinator.

(** [handle_movement_failure] is the request followed by the polling loop;
    nothing before the loop writes the safety status. *)
Lemma handle_movement_failure_unfold (env : SafetyEnv) (fuel : nat) (w : World) :
  handle_movement_failure env fuel w =
  safety_poll env fuel 0
    (add_sent safety_request (add_log (Log ERROR "executing security protocol") w)).
Proof. reflexivity. Qed.

Lemma steady_env_ticking (completed_at : option nat) : ticking (steady_env completed_at).
Proof.
  split; [apply Qle_refl|]. intros i. cbn [poll_time steady_env].
  rewrite Nat2Z.inj_succ. unfold Z.succ. rewrite inject_Z_plus.
  change (inject_Z 1) with 1%Q. lra.
Qed.

(** The two ways a call of [handle_movement_failure] ends. *)
Lemma handle_movement_failure_cases (env : SafetyEnv) (fuel : nat) (w : World) :
  ticking env → (31 ≤ fuel)%nat →
  (completed_observed env (safety_status w) ∧
   ∃ w', handle_movement_failure env fuel w = Ret tt w' ∧
         closes w' = closes w ∧ sent w' = sent w ++ [safety_request] ∧
         scan_results w' = scan_results w) ∨
  (¬ completed_observed env (safety_status w) ∧
   ∃ w', handle_movement_failure env fuel w = Exit 1 w' ∧
         closes w' = S (closes w) ∧ sent w' = sent w ++ [safety_request] ∧
         scan_results w' = scan_results w).
Proof.
  intros Htick Hfuel.
  rewrite handle_movement_failure_unfold.
  set (w0 := add_sent safety_request (add_log (Log ERROR "executing security protocol") w)).
  assert (Henough : (15 <= elapsed env 0 + (inject_Z (Z.of_nat fuel) - 1) * (1 # 2))%Q).
  { pose proof (elapsed_0 env Htick).
    assert (inject_Z 31 <= inject_Z (Z.of_nat fuel))%Q by (rewrite <- Zle_Qle; lia).
    change (inject_Z 31) with 31%Q in *.
    set (q := inject_Z (Z.of_nat fuel)) in *. lra. }
  destruct (safety_poll_outcome env Htick (safety_status w) fuel 0%nat w0 Henough
              ltac:(lia) eq_refl ltac:(intros; lia))
    as [(w' & n & Hrun & Hn & Hcomp & _ & Hc & Hm & Hr)|(w' & Hrun & Hnone & Hc & Hm & Hr)].
  - left. split; [exists n; auto|]. exists w'. auto.
  - right. split.
    + intros (i & Hi & Hcomp). rewrite (Hnone i Hi) in Hcomp. discriminate.
    + exists w'. auto.
Qed.

(** The [finally] clause of [run] calls [close] once more on an exit that
    unwinds through it, and sends nothing. *)
Lemma run_closes_on_exit (fuel : nat) (script : list Step) (w w1 : World) (c : Z) :
  main_menu_loop fuel script (add_log (Log INFO "connected to VEX brain") w) = Exit c w1 →
  run true fuel script w =
  Exit c (add_close (add_log (Log INFO "closing serial connection.") w1)).
Proof.
  intros Hloop. unfold run, try_finally.
  rewrite (bind_Ret (log_info _) _ w tt _ eq_refl), Hloop. reflexivity.
Qed.

(** C1 as the code has it: with a clock that does not run backwards and
    advances by at least the sleep interval per iteration, every call of
    [handle_movement_failure] ends (31 polls are enough) in one of two ways.
    It returns (Recovered) exactly when some poll whose loop test read an
    elapsed time strictly below 15 observed the status [completed]; then it
    closes nothing. Otherwise it calls [close] exactly once and raises
    [SystemExit] with code 1 (Fatal). In both cases exactly one safety
    request was sent: the protocol is never retried. An exit that reaches
    [run] makes its [finally] clause call [close] one more time before the
    process terminates. *)
Theorem safety_recovery_outcome (env : SafetyEnv) (fuel : nat) (w : World) :
  ticking env → (31 ≤ fuel)%nat →
  ((∃ w', handle_movement_failure env fuel w = Ret tt w') ↔
   completed_observed env (safety_status w)) ∧
  ((completed_observed env (safety_status w) ∧
    ∃ w', handle_movement_failure env fuel w = Ret tt w' ∧
          closes w' = closes w ∧ sent w' = sent w ++ [safety_request]) ∨
   (¬ completed_observed env (safety_status w) ∧
    ∃ w', handle_movement_failure env fuel w = Exit 1 w' ∧
          closes w' = S (closes w) ∧ sent w' = sent w ++ [safety_request])) ∧
  (∀ script w0 w1 c,
     main_menu_loop fuel script (add_log (Log INFO "connected to VEX brain") w0)
     = Exit c w1 →
     ∃ w2, run true fuel script w0 = Exit c w2 ∧
           closes w2 = S (closes w1) ∧ sent w2 = sent w1).
Proof.
  intros Htick Hfuel.
  assert (Hrun_exit : ∀ script w0 w1 c,
            main_menu_loop fuel script (add_log (Log INFO "connected to VEX brain") w0)
            = Exit c w1 →
            ∃ w2, run true fuel script w0 = Exit c w2 ∧
                  closes w2 = S (closes w1) ∧ sent w2 = sent w1).
  { intros script w0 w1 c Hloop. eexists.
    split; [apply run_closes_on_exit, Hloop|]. split; reflexivity. }
  destruct (handle_movement_failure_cases env fuel w Htick Hfuel)
    as [(Hobs & w' & Hrun & Hc & Hm & _)|(Hnobs & w' & Hrun & Hc & Hm & _)].
  - split; [split; [intros _; exact Hobs | intros _; eauto]|].
    split; [|exact Hrun_exit].
    left. split; [exact Hobs|]. exists w'. auto.
  - split; [|split; [|exact Hrun_exit]].
    + split; [|intros Hobs; contradiction].
      intros (w'' & Hret). rewrite Hrun in Hret. discriminate.
    + right. split; [exact Hnobs|]. exists w'. auto.
Qed.

(** The safety status turns [completed] at time 10: recovered. *)
Lemma safety_recovery_witness :
  ticking (steady_env (Some 10%nat)) ∧ (31 ≤ 31)%nat ∧
  ∃ w', handle_movement_failure (steady_env (Some 10%nat)) 31 Robot_init = Ret tt w' ∧
        closes w' = 0%nat ∧ sent w' = [safety_request].
Proof.
  split; [apply steady_env_ticking|]. split; [lia|].
  destruct (safety_recovery_outcome (steady_env (Some 10%nat)) 31 Robot_init
              (steady_env_ticking _) ltac:(lia)) as (_ & [(_ & Hrec)|(Hnobs & _)] & _).
  - exact Hrec.
  - exfalso. apply Hnobs. exists 10%nat. split; reflexivity.
Defined.

(** C10: [handle_movement_failure] writes nothing to the safety status
    before it polls. When the status is already [completed] at the call and
    the transport delivers nothing before the first poll, the call returns at
    that first poll, right after sending the request, without waiting for
    the requested protocol to complete. *)
Theorem stale_completed_recovers_at_first_poll (env : SafetyEnv) (fuel : nat) (w : World) :
  safety_status w = Some "completed" →
  poll_delivery env 0 = None →
  (elapsed env 0 < 15)%Q →
  (0 < fuel)%nat →
  (∃ w0, handle_movement_failure env fuel w = safety_poll env fuel 0 w0 ∧
         safety_status w0 = safety_status w) ∧
  handle_movement_failure env fuel w =
    Ret tt (add_log (Log INFO "system safety")
              (add_sent safety_request
                 (add_log (Log ERROR "executing security protocol") w))).
Proof.
  intros Hstale Hquiet Hin Hfuel.
  split; [eexists; split; [apply handle_movement_failure_unfold | reflexivity]|].
  rewrite handle_movement_failure_unfold.
  destruct fuel as [|fuel]; [lia|].
  cbn [safety_poll]. fold (elapsed env 0).
  destruct (Qlt_le_dec (elapsed env 0) 15) as [_|Hout]; [|lra].
  rewrite Hquiet. unfold safety_delivery, bind, ret, get_world.
  cbn [safety_status add_sent add_log]. rewrite Hstale. reflexivity.
Qed.

(** A second failure right after a successful recovery: the status is still
    [completed] and the transport stays silent for good. *)
Lemma stale_completed_witness :
  handle_movement_failure (steady_env None) 1
    (set_safety_status (Some "completed") Robot_init)
  = Ret tt (add_log (Log INFO "system safety")
              (add_sent safety_request
                 (add_log (Log ERROR "executing security protocol")
                    (set_safety_status (Some "completed") Robot_init)))).
Proof.
  apply (stale_completed_recovers_at_first_poll (steady_env None) 1
           (set_safety_status (Some "completed") Robot_init)).
  - reflexivity.
  - reflexivity.
  - reflexivity.
  - lia.
Defined.

(** ** MovementSequencer *)

Section MovementSequencer.

Variable message_type : string.
Variable confirm : nat → Confirmation.
Variable env : SafetyEnv.
Variable fuel : nat.

Lemma sends_only_refl w : sends_only [] w w.
Proof.
  unfold sends_only. rewrite app_nil_r. repeat split. exists []. rewrite app_nil_r. reflexivity.
Qed.

Lemma sends_only_trans m1 m2 w1 w2 w3 :
  sends_only m1 w1 w2 → sends_only m2 w2 w3 → sends_only (m1 ++ m2) w1 w3.
Proof.
  intros (Hs1 & Hc1 & Hf1 & Hr1 & l1 & Hl1) (Hs2 & Hc2 & Hf2 & Hr2 & l2 & Hl2).
  unfold sends_only. rewrite Hs2, Hs1, app_assoc.
  repeat split; try congruence.
  exists (l1 ++ l2). rewrite Hl2, Hl1, app_assoc. reflexivity.
Qed.

Lemma log_grows_refl w : log_grows w w.
Proof. exists []. rewrite app_nil_r. reflexivity. Qed.

Lemma log_grows_trans w1 w2 w3 : log_grows w1 w2 → log_grows w2 w3 → log_grows w1 w3.
Proof.
  intros [l1 H1] [l2 H2]. exists (l1 ++ l2). rewrite H2, H1, app_assoc. reflexivity.
Qed.

Lemma handle_movement_failure_log_grows :
  preserves log_grows (handle_movement_failure env fuel).
Proof.
  apply preserves_handle_movement_failure.
  - apply log_grows_refl.
  - apply log_grows_trans.
  - intros r w. exists [r]. reflexivity.
  - intros m w. exists []. cbn. rewrite app_nil_r. reflexivity.
  - intros s w. exists []. cbn. rewrite app_nil_r. reflexivity.
  - intros w. exists []. cbn. rewrite app_nil_r. reflexivity.
Qed.

(** A step whose confirmation arrives: the command is sent and the loop
    goes on with the next step. *)
Lemma execute_steps_completed move rest k w :
  confirm k = Completed →
  ∃ w1, execute_steps message_type (move :: rest) confirm k env fuel w =
        execute_steps message_type rest confirm (S k) env fuel w1 ∧
        sends_only [step_message message_type move] w w1.
Proof.
  intros Hk. cbn [execute_steps]. unfold try_except, bind at 1 2 3 4 5.
  unfold log_info, modify, send_message, wait_for_confirmation. rewrite Hk.
  unfold bind, modify, ret. cbn [negb].
  eexists. split; [reflexivity|].
  unfold sends_only. cbn. repeat split.
  eexists. rewrite <- app_assoc. reflexivity.
Qed.

(** The steps before the first failure are all sent, in order. *)
Lemma execute_steps_completed_prefix before rest :
  ∀ k w,
    (∀ j, (j < length before)%nat → confirm (k + j)%nat = Completed) →
    ∃ w1, execute_steps message_type (before ++ rest) confirm k env fuel w =
          execute_steps message_type rest confirm (k + length before)%nat env fuel w1 ∧
          sends_only (map (step_message message_type) before) w w1.
Proof.
  induction before as [|move before IH]; intros k w Hok.
  - exists w. rewrite Nat.add_0_r. split; [reflexivity | apply sends_only_refl].
  - cbn [app length map].
    destruct (execute_steps_completed move (before ++ rest) k w) as (w1 & Hstep & Hs1).
    { rewrite <- (Nat.add_0_r k). apply Hok. cbn. lia. }
    destruct (IH (S k) w1) as (w2 & Hrest & Hs2).
    { intros j Hj. replace (S k + j)%nat with (k + S j)%nat by lia. apply Hok. cbn. lia. }
    exists w2. split.
    + rewrite Hstep, Hrest. f_equal. lia.
    + apply (sends_only_trans [_] _ _ _ _ Hs1 Hs2).
Qed.

(** The step whose confirmation fails or times out: its command is sent,
    the failure is logged with the joint's name, and what remains is the
    safety protocol followed by the re-raise; the rest of the plan is gone. *)
Lemma execute_steps_failing move rest k w :
  confirm k ≠ Completed →
  execute_steps message_type (move :: rest) confirm k env fuel w =
  bind (handle_movement_failure env fuel)
       (λ _, raise (Exception ("movement failed in: " +:+ joint move)))
       (step_failed message_type move (confirm k) w).
Proof.
  intros Hk. cbn [execute_steps].
  destruct (confirm k) eqn:Hc; [contradiction| |];
    set (W := step_failed message_type move _ w);
    cbv beta iota zeta delta
      [try_except bind log_info log_error modify send_message
       wait_for_confirmation raise ret negb str];
    match goal with
    | |- context [handle_movement_failure env fuel (add_log ?r ?w0)] =>
        change (add_log r w0) with W
    end;
    destruct (handle_movement_failure env fuel W); reflexivity.
Qed.

Lemma step_failed_sends_only move c w :
  sends_only [step_message message_type move] w (step_failed message_type move c w) ∧
  In (Log ERROR ("error in movement: movement failed in: " +:+ joint move))
     (log (step_failed message_type move c w)).
Proof.
  split.
  - unfold sends_only. destruct c; cbn; repeat split; eexists;
      rewrite <- !app_assoc; reflexivity.
  - destruct c; cbn; rewrite !in_app_iff; cbn; auto.
Qed.

End MovementSequencer.

(** What [execute_movement] does when [move] is the first step that is
    not confirmed. *)
Lemma execute_movement_first_failure
    (message_type : string) (before after : list MovementStep) (move : MovementStep)
    (confirm : nat → Confirmation) (env : SafetyEnv) (fuel : nat) (w : World) :
  ticking env → (31 ≤ fuel)%nat →
  (∀ j, (j < length before)%nat → confirm j = Completed) →
  confirm (length before) ≠ Completed →
  let failure := Exception ("movement failed in: " +:+ joint move) in
  ∃ w',
    ((completed_observed env (safety_status w) ∧
      execute_movement message_type (before ++ move :: after) confirm env fuel w
      = Raise failure w' ∧ closes w' = closes w) ∨
     (¬ completed_observed env (safety_status w) ∧
      execute_movement message_type (before ++ move :: after) confirm env fuel w
      = Exit 1 w' ∧ closes w' = S (closes w))) ∧
    sent w' = sent w ++ map (step_message message_type) (before ++ [move])
                     ++ [safety_request] ∧
    In (Log ERROR ("error in movement: " +:+ str failure)) (log w') ∧
    scan_results w' = scan_results w.
Proof.
  intros Htick Hfuel Hok Hfail failure.
  unfold execute_movement.
  rewrite (bind_Ret (log_info _) _ w tt _ eq_refl).
  set (w0 := add_log (Log INFO (nl +:+ "execution movements:")) w).
  destruct (execute_steps_completed_prefix message_type confirm env fuel
              before (move :: after) 0%nat w0 Hok)
    as (w1 & Hprefix & Hs1 & Hc1 & Hf1 & Hr1 & l1 & Hl1).
  rewrite Hprefix. cbn [Nat.add].
  rewrite (execute_steps_failing message_type confirm env fuel move after _ w1 Hfail).
  set (wf := step_failed message_type move (confirm (length before)) w1).
  destruct (step_failed_sends_only message_type move (confirm (length before)) w1)
    as ((Hs2 & Hc2 & Hf2 & Hr2 & l2 & Hl2) & Hlogged).
  fold wf in Hs2, Hc2, Hf2, Hr2, Hl2, Hlogged.
  assert (Hstatus : safety_status wf = safety_status w) by (rewrite Hf2, Hf1; reflexivity).
  assert (Hcloses : closes wf = closes w) by (rewrite Hc2, Hc1; reflexivity).
  assert (Hscan : scan_results wf = scan_results w) by (rewrite Hr2, Hr1; reflexivity).
  pose proof (handle_movement_failure_log_grows env fuel wf) as Hgrow.
  assert (Hsent : ∀ w', sent w' = sent wf ++ [safety_request] →
                        sent w' = sent w ++ map (step_message message_type) (before ++ [move])
                                         ++ [safety_request]).
  { intros w' ->. rewrite Hs2, Hs1, map_app. cbn. rewrite <- !app_assoc. reflexivity. }
  assert (Hin : ∀ w', log_grows wf w' →
                      In (Log ERROR ("error in movement: " +:+ str failure)) (log w')).
  { intros w' [l ->]. apply in_or_app. left. exact Hlogged. }
  destruct (handle_movement_failure_cases env fuel wf Htick Hfuel)
    as [(Hobs & w' & Hrun & Hc & Hm & Hr)|(Hnobs & w' & Hrun & Hc & Hm & Hr)];
    rewrite Hstatus in *; rewrite Hrun in Hgrow; exists w'.
  - split; [left; split; [exact Hobs|split; [|congruence]]
           |split; [apply Hsent, Hm | split; [apply Hin, Hgrow | congruence]]].
    rewrite (bind_Ret _ _ _ _ _ Hrun). reflexivity.
  - split; [right; split; [exact Hnobs|split; [|congruence]]
           |split; [apply Hsent, Hm | split; [apply Hin, Hgrow | congruence]]].
    unfold bind. rewrite Hrun. reflexivity.
Qed.

(** C4: a plan whose steps before [move] are all confirmed and whose step
    [move], at position k = length before + 1, is the first that fails or
    times out. [execute_movement] sends the commands of the first k steps
    under the given service tag, in order and once each, then the safety
    request, and nothing of the steps after [move]. The failure is logged
    with the name of the failed joint and is what the call raises when the
    safety protocol recovers; when it does not, the call ends in
    [SystemExit]. The call never returns normally. *)
Theorem failing_step_aborts_plan
    (message_type : string) (before after : list MovementStep) (move : MovementStep)
    (confirm : nat → Confirmation) (env : SafetyEnv) (fuel : nat) (w : World) :
  ticking env → (31 ≤ fuel)%nat →
  (∀ j, (j < length before)%nat → confirm j = Completed) →
  confirm (length before) ≠ Completed →
  let failure := Exception ("movement failed in: " +:+ joint move) in
  ∃ w',
    ((completed_observed env (safety_status w) ∧
      execute_movement message_type (before ++ move :: after) confirm env fuel w
      = Raise failure w') ∨
     (¬ completed_observed env (safety_status w) ∧
      execute_movement message_type (before ++ move :: after) confirm env fuel w
      = Exit 1 w')) ∧
    sent w' = sent w ++ map (step_message message_type) (before ++ [move])
                     ++ [safety_request] ∧
    length (map (step_message message_type) (before ++ [move])) = S (length before) ∧
    In (Log ERROR ("error in movement: " +:+ str failure)) (log w').
Proof.
  intros Htick Hfuel Hok Hfail failure.
  destruct (execute_movement_first_failure message_type before after move confirm
              env fuel w Htick Hfuel Hok Hfail)
    as (w' & Hrun & Hsent & Hlog & _).
  exists w'. split; [|split; [exact Hsent|split; [|exact Hlog]]].
  - destruct Hrun as [(Hobs & Hrun & _)|(Hnobs & Hrun & _)]; [left|right]; auto.
  - rewrite length_map, length_app. cbn. lia.
Qed.

(** The pick plan whose third step, closing the gripper, times out while
    the safety protocol completes at time 10: three commands, then the
    safety request, and the failure of the gripper is raised. *)
Lemma failing_step_witness :
  let target := mkScanned 1 10 100 "apple" 0.9%Q (mkZone 90 200) in
  ∃ w',
    execute_movement "pick_service" (pick_plan target) (fails_at 2 TimedOut)
                     (steady_env (Some 10%nat)) 31 Robot_init
    = Raise (Exception "movement failed in: gripper") w' ∧
    sent w' = map (step_message "pick_service") (take 3 (pick_plan target))
              ++ [safety_request].
Proof.
  intros target.
  destruct (failing_step_aborts_plan "pick_service"
              (take 2 (pick_plan target)) (drop 3 (pick_plan target))
              (mkStep "gripper" None None (Some "close") None)
              (fails_at 2 TimedOut) (steady_env (Some 10%nat)) 31 Robot_init
              (steady_env_ticking _) ltac:(lia))
    as (w' & [(_ & Hrun)|(Hnobs & _)] & Hsent & _ & _).
  - intros j Hj. cbn in Hj. unfold fails_at. destruct (decide (j = 2%nat)); [lia|reflexivity].
  - discriminate.
  - exists w'. split; [exact Hrun | exact Hsent].
  - exfalso. apply Hnobs. exists 10%nat. split; reflexivity.
Defined.

(** C4 as stated does not hold when the safety protocol does not complete.
    The pick plan whose third step, closing the gripper, times out while the
    safety status never becomes [completed]: the three commands and the
    safety request are sent, but no movement failure reaches the caller of
    [execute_movement]. [handle_movement_failure] closes the transport and
    raises [SystemExit] with code 1 before the [raise] of the [except]
    clause is reached. *)
Lemma fatal_failure_raises_no_movement_failure :
  ∃ w',
    execute_movement "pick_service"
                     (pick_plan (mkScanned 1 10 100 "apple" 0.9%Q (mkZone 90 200)))
                     (fails_at 2 TimedOut) (steady_env None) 31 Robot_init
    = Exit 1 w' ∧
    (∀ e w'',
       execute_movement "pick_service"
                        (pick_plan (mkScanned 1 10 100 "apple" 0.9%Q (mkZone 90 200)))
                        (fails_at 2 TimedOut) (steady_env None) 31 Robot_init
       ≠ Raise e w'') ∧
    map service (sent w') =
      ["pick_service"; "pick_service"; "pick_service"; "safety_service"] ∧
    closes w' = 1%nat.
Proof.
  eexists. split; [vm_compute; reflexivity|].
  split; [intros e w''; vm_compute; discriminate|].
  vm_compute. split; reflexivity.
Qed.

(** ** Orchestrator: selection *)

Section Selection.

Variable items : list Scanned.

Lemma print_listing_finalized (l : list Scanned) :
  ∀ w, ∃ w', print_listing (map Item l) w = Ret tt w' ∧ logged w w'.
Proof.
  induction l as [|o l IH]; intros w; cbn [map print_listing].
  - exists w. auto with world.
  - destruct (IH (add_log (PrintObj o) w)) as (w' & Hrun & Hlog).
    exists w'. split; [exact Hrun|].
    eapply logged_trans; [apply logged_add_log | exact Hlog].
Qed.

Lemma find_index_finalized (selection : Z) (l : list Scanned) (w : World) :
  find_index selection (map Item l) w =
  Ret (List.find (λ x, Z.eqb (index x) selection) l) w.
Proof.
  induction l as [|x l IH]; cbn [map find_index List.find]; [reflexivity|].
  destruct (Z.eqb (index x) selection); [reflexivity | exact IH].
Qed.

(** On a finalized catalog the selection of an answered prompt never raises
    and only prints. *)
Lemma select_object_interactively_finalized (answer : Answer) (w : World) :
  scan_results w = map Item items →
  answer ≠ EndOfInput →
  ∃ w', select_object_interactively answer w = Ret (selection_of answer items) w' ∧
        logged w w'.
Proof.
  intros Hcat Hanswered. unfold select_object_interactively, selection_of.
  rewrite (bind_Ret (print _) _ w tt _ eq_refl).
  set (w0 := add_log _ w).
  rewrite (bind_Ret get_world _ w0 w0 w0 eq_refl).
  change (scan_results w0) with (scan_results w). rewrite Hcat.
  destruct (print_listing_finalized items w0) as (w1 & Hlist & [l1 Hl1]).
  rewrite (bind_Ret _ _ _ _ _ Hlist).
  rewrite (bind_Ret (print _) _ w1 tt _ eq_refl).
  set (w2 := add_log _ w1).
  assert (Hcat2 : scan_results w2 = map Item items).
  { subst w2 w1 w0. exact Hcat. }
  assert (Hlog2 : logged w w2).
  { subst w2 w1 w0. eexists. reflexivity. }
  unfold try_except_ValueError.
  destruct answer as [| |n]; [congruence| |].
  - eexists. split; [reflexivity|].
    eapply logged_trans; [exact Hlog2 | apply logged_add_log].
  - unfold bind at 1, ret at 1.
    destruct (Z.eqb n 0).
    + eexists. split; [reflexivity|].
      eapply logged_trans; [exact Hlog2 | apply logged_add_log].
    + rewrite (bind_Ret get_world _ w2 w2 w2 eq_refl). rewrite Hcat2.
      rewrite find_index_finalized. exists w2. split; [reflexivity | exact Hlog2].
Qed.


(** The pick and place command when nothing is selected: it returns and
    has only written to the log. *)
Lemma handle_pick_place_command_no_selection (env : PickPlaceEnv) (fuel : nat) (w : World) :
  scan_results w = map Item items →
  answer env ≠ EndOfInput →
  selection_of (answer env) items = None →
  ∃ w', handle_pick_place_command env fuel w = Ret tt w' ∧ logged w w'.
Proof.
  intros Hcat Hanswered Hsel. unfold handle_pick_place_command.
  rewrite (bind_Ret get_world _ w w w eq_refl).
  destruct (scan_results w) as [|e l] eqn:Hres.
  - eexists. split; [reflexivity | apply logged_add_log].
  - rewrite <- Hres in Hcat.
    destruct (select_object_interactively_finalized (answer env) w Hcat Hanswered)
      as (w' & Hrun & Hlog).
    rewrite (bind_Ret _ _ _ _ _ Hrun), Hsel.
    exists w'. split; [reflexivity | exact Hlog].
Qed.

End Selection.

(** The listing either prints every entry or stops with [KeyError] at the
    first entry that was never finalized; it only prints. *)
Lemma print_listing_outcome (objs : list Entry) :
  ∀ w, ∃ w', (print_listing objs w = Ret tt w' ∨
              print_listing objs w = Raise (KeyError "index") w') ∧
             logged w w'.
Proof.
  induction objs as [|[p|o] objs IH]; intros w; cbn [print_listing].
  - exists w. auto with world.
  - exists w. auto with world.
  - destruct (IH (add_log (PrintObj o) w)) as (w' & Hrun & Hlog).
    exists w'. split; [exact Hrun|].
    eapply logged_trans; [apply logged_add_log | exact Hlog].
Qed.

(** A line that is no integer, or that reads 0, selects nothing whatever
    the catalog holds. *)
Lemma select_object_interactively_cancelled (answer : Answer) (w : World) :
  answer = NotAnInteger ∨ answer = Integer 0 →
  ∃ w', (select_object_interactively answer w = Ret None w' ∨
         select_object_interactively answer w = Raise (KeyError "index") w') ∧
        logged w w'.
Proof.
  intros Hline. unfold select_object_interactively.
  rewrite (bind_Ret (print _) _ w tt _ eq_refl).
  set (w0 := add_log _ w).
  rewrite (bind_Ret get_world _ w0 w0 w0 eq_refl).
  destruct (print_listing_outcome (scan_results w0) w0) as (w1 & [Hlist|Hlist] & [l1 Hl1]).
  - rewrite (bind_Ret _ _ _ _ _ Hlist).
    rewrite (bind_Ret (print _) _ w1 tt _ eq_refl).
    unfold try_except_ValueError.
    destruct Hline as [->| ->]; (eexists; split; [left; reflexivity|]);
      subst w1 w0; eexists; reflexivity.
  - rewrite (bind_Raise _ _ _ _ _ Hlist).
    exists w1. split; [right; reflexivity|]. subst w1 w0. eexists. reflexivity.
Qed.

(** C8: a pick and place command on an empty catalog only logs the warning
    that asks for a scan first and returns. When [int] rejects the selection
    line with [ValueError] or reads 0 from it, the command changes nothing
    but the log, so no message is sent, and on a catalog of finalized entries
    it returns normally. *)
Theorem pick_place_cancelled_sends_nothing (env : PickPlaceEnv) (fuel : nat) (w : World) :
  scan_results w = [] ∨
  answer env = NotAnInteger ∨ answer env = Integer 0 →
  (scan_results w = [] →
   handle_pick_place_command env fuel w =
   Ret tt (add_log (Log WARNING "1. first scanning the enviroment (option 'n')") w)) ∧
  (∃ w', (handle_pick_place_command env fuel w = Ret tt w' ∨
          handle_pick_place_command env fuel w = Raise (KeyError "index") w') ∧
         logged w w' ∧ sent w' = sent w) ∧
  (∀ items, scan_results w = map Item items →
     ∃ w', handle_pick_place_command env fuel w = Ret tt w' ∧
           logged w w' ∧ sent w' = sent w ∧ scan_results w' = scan_results w).
Proof.
  intros Hcancel.
  assert (Hempty : scan_results w = [] →
                   handle_pick_place_command env fuel w =
                   Ret tt (add_log (Log WARNING "1. first scanning the enviroment (option 'n')") w)).
  { intros Hnil. unfold handle_pick_place_command.
    rewrite (bind_Ret get_world _ w w w eq_refl), Hnil. reflexivity. }
  assert (Hany : ∃ w', (handle_pick_place_command env fuel w = Ret tt w' ∨
                        handle_pick_place_command env fuel w = Raise (KeyError "index") w') ∧
                       logged w w').
  { destruct (scan_results w) as [|e l] eqn:Hres.
    - eexists. split; [left; apply Hempty; reflexivity | apply logged_add_log].
    - destruct Hcancel as [Hnil|Hline]; [discriminate Hnil|].
      unfold handle_pick_place_command.
      rewrite (bind_Ret get_world _ w w w eq_refl), Hres.
      destruct (select_object_interactively_cancelled (answer env) w Hline)
        as (w' & [Hrun|Hrun] & Hlog); exists w'.
      + rewrite (bind_Ret _ _ _ _ _ Hrun). auto.
      + rewrite (bind_Raise _ _ _ _ _ Hrun). auto. }
  split; [exact Hempty|]. split.
  - destruct Hany as (w' & Hrun & [l ->]).
    eexists. split; [exact Hrun|]. split; [eexists; reflexivity | reflexivity].
  - intros items Hcat.
    destruct Hany as (w' & [Hrun|Hrun] & [l ->]).
    + eexists. split; [exact Hrun|]. split; [eexists; reflexivity|]. split; reflexivity.
    + exfalso.
      assert (Hsel : items = [] ∨
                     (answer env ≠ EndOfInput ∧ selection_of (answer env) items = None)).
      { destruct Hcancel as [H|[H|H]].
        - left. rewrite Hcat in H. destruct items; [reflexivity | discriminate].
        - right. unfold selection_of. rewrite H. split; [discriminate | reflexivity].
        - right. unfold selection_of. rewrite H. split; [discriminate | reflexivity]. }
      destruct Hsel as [->|[Hanswered Hsel]].
      * rewrite (Hempty Hcat) in Hrun. discriminate.
      * destruct (handle_pick_place_command_no_selection items env fuel w Hcat
                    Hanswered Hsel) as (w'' & Hret & _).
        rewrite Hret in Hrun. discriminate.
Qed.

Lemma pick_place_cancelled_witness :
  (∃ w', handle_pick_place_command (typed (Integer 0)) 31
           (set_scan_results (map Item two_objects) Robot_init) = Ret tt w' ∧
         sent w' = []) ∧
  (∃ w', handle_pick_place_command (typed NotAnInteger) 31
           (set_scan_results (map Item two_objects) Robot_init) = Ret tt w' ∧
         sent w' = []) ∧
  handle_pick_place_command (typed (Integer 1)) 31 Robot_init =
  Ret tt (add_log (Log WARNING "1. first scanning the enviroment (option 'n')") Robot_init).
Proof.
  split; [|split].
  - destruct (pick_place_cancelled_sends_nothing (typed (Integer 0)) 31
                (set_scan_results (map Item two_objects) Robot_init))
      as (_ & _ & Hfinal); [right; right; reflexivity|].
    destruct (Hfinal two_objects eq_refl) as (w' & Hrun & _ & Hsent & _).
    exists w'. split; [exact Hrun | exact Hsent].
  - destruct (pick_place_cancelled_sends_nothing (typed NotAnInteger) 31
                (set_scan_results (map Item two_objects) Robot_init))
      as (_ & _ & Hfinal); [right; left; reflexivity|].
    destruct (Hfinal two_objects eq_refl) as (w' & Hrun & _ & Hsent & _).
    exists w'. split; [exact Hrun | exact Hsent].
  - destruct (pick_place_cancelled_sends_nothing (typed (Integer 1)) 31 Robot_init)
      as (Hempty & _); [left; reflexivity|].
    apply Hempty. reflexivity.
Defined.

(** A selection that names an object was answered with an integer, on a
    catalog that is not empty. *)
Lemma selection_of_Some (answer : Answer) (items : list Scanned) (obj : Scanned) :
  selection_of answer items = Some obj →
  answer ≠ EndOfInput ∧ items ≠ [].
Proof.
  unfold selection_of. destruct answer as [| |n]; try discriminate.
  destruct (Z.eqb n 0); [discriminate|].
  destruct items; [discriminate|]. intros _. split; discriminate.
Qed.

Lemma find_index_none (n : Z) (items : list Scanned) :
  (∀ x, In x items → index x ≠ n) →
  List.find (λ x, Z.eqb (index x) n) items = None.
Proof.
  induction items as [|x items IH]; intros Hnone; cbn [List.find]; [reflexivity|].
  destruct (Z.eqb_spec (index x) n) as [Heq|_].
  - exfalso. apply (Hnone x); [left; reflexivity | exact Heq].
  - apply IH. intros y Hy. apply Hnone. right. exact Hy.
Qed.

(** C9: on a finalized catalog, a selection line from which [int] reads a
    number equal to no index of the catalog (too large, negative) makes the
    selection return the empty result, and the pick and place command returns
    with nothing sent and only the log changed, which is also all that the
    explicit cancellation with 0 does. *)
Theorem unmatched_selection_is_cancellation
    (items : list Scanned) (env : PickPlaceEnv) (fuel : nat) (w : World) (n : Z) :
  scan_results w = map Item items →
  answer env = Integer n →
  (∀ x, In x items → index x ≠ n) →
  (∃ w1, select_object_interactively (answer env) w = Ret None w1) ∧
  ∃ w' w0,
    handle_pick_place_command env fuel w = Ret tt w' ∧
    sent w' = sent w ∧ logged w w' ∧
    handle_pick_place_command (with_answer (Integer 0) env) fuel w = Ret tt w0 ∧
    logged w0 w'.
Proof.
  intros Hcat Hint Hnone.
  assert (Hanswered : answer env ≠ EndOfInput) by (rewrite Hint; discriminate).
  assert (Hsel : selection_of (answer env) items = None).
  { unfold selection_of. rewrite Hint.
    destruct (Z.eqb n 0); [reflexivity | apply find_index_none, Hnone]. }
  split.
  - destruct (select_object_interactively_finalized items (answer env) w Hcat Hanswered)
      as (w1 & Hrun & _).
    exists w1. rewrite Hrun, Hsel. reflexivity.
  - destruct (handle_pick_place_command_no_selection items env fuel w Hcat Hanswered Hsel)
      as (w' & Hrun & [l ->]).
    destruct (handle_pick_place_command_no_selection items (with_answer (Integer 0) env)
                fuel w Hcat ltac:(discriminate) eq_refl) as (w0 & Hrun0 & [l0 ->]).
    do 2 eexists. split; [exact Hrun|]. split; [reflexivity|].
    split; [eexists; reflexivity|]. split; [exact Hrun0|]. eexists. reflexivity.
Qed.

(** Two objects in the catalog, the user asks for object 5. *)
Lemma unmatched_selection_witness :
  ∃ w', handle_pick_place_command (typed (Integer 5)) 31
          (set_scan_results (map Item two_objects) Robot_init) = Ret tt w' ∧
        sent w' = [].
Proof.
  destruct (unmatched_selection_is_cancellation two_objects (typed (Integer 5)) 31
              (set_scan_results (map Item two_objects) Robot_init) 5 eq_refl eq_refl)
    as (_ & w' & w0 & Hrun & Hsent & _).
  - intros x [<-|[<-|[]]]; discriminate.
  - exists w'. split; [exact Hrun | exact Hsent].
Defined.

(** ** Orchestrator: a pick that fails and recovers *)

(** A pick sequence whose plan fails at the step at position [k] (from 0):
    when the safety protocol recovers the failure is caught and the sequence
    reports [False]; when it does not, the exit passes through the
    [except Exception] clause. *)
Lemma execute_pick_sequence_first_failure
    (obj : Scanned) (confirm : nat → Confirmation) (env : SafetyEnv) (fuel : nat)
    (w : World) (k : nat) (move : MovementStep) :
  pick_plan obj !! k = Some move →
  (∀ j, (j < k)%nat → confirm j = Completed) →
  confirm k ≠ Completed →
  ticking env → (31 ≤ fuel)%nat →
  ∃ w',
    ((completed_observed env (safety_status w) ∧
      execute_pick_sequence obj confirm env fuel w = Ret false w' ∧
      closes w' = closes w) ∨
     (¬ completed_observed env (safety_status w) ∧
      execute_pick_sequence obj confirm env fuel w = Exit 1 w' ∧
      closes w' = S (closes w))) ∧
    scan_results w' = scan_results w ∧
    sent w' = sent w ++ map (step_message "pick_service") (take (S k) (pick_plan obj))
                     ++ [safety_request].
Proof.
  intros Hk Hok Hfail Htick Hfuel.
  pose proof (take_drop_middle _ _ _ Hk) as Hsplit.
  pose proof (take_S_r _ _ _ Hk) as Htake.
  assert (Hlen : length (take k (pick_plan obj)) = k).
  { apply length_take_le. apply lookup_lt_Some in Hk. lia. }
  destruct (execute_movement_first_failure "pick_service"
              (take k (pick_plan obj)) (drop (S k) (pick_plan obj)) move
              confirm env fuel w Htick Hfuel)
    as (w3 & Hrun & Hsent & _ & Hscan).
  { rewrite Hlen. exact Hok. }
  { rewrite Hlen. exact Hfail. }
  rewrite Hsplit, <- Htake in *.
  unfold execute_pick_sequence, try_except.
  destruct Hrun as [(Hobs & Hrun & Hcl)|(Hnobs & Hrun & Hcl)].
  - rewrite (bind_Raise _ _ _ _ _ Hrun).
    eexists. split; [left; split; [exact Hobs|]; split; [reflexivity|]|];
      cbn [scan_results sent closes add_log]; auto.
  - exists w3. split; [right; split; [exact Hnobs|]; split; [|exact Hcl]|auto].
    unfold bind. rewrite Hrun. reflexivity.
Qed.

(** The pick and place command whose pick plan fails at the step at
    position [k]: it returns after a recovery and ends in [SystemExit]
    otherwise; either way the catalog is untouched and no place command is
    sent. *)
Lemma handle_pick_place_command_first_failure
    (items : list Scanned) (env : PickPlaceEnv) (fuel : nat) (w : World)
    (obj : Scanned) (k : nat) (move : MovementStep) :
  scan_results w = map Item items →
  selection_of (answer env) items = Some obj →
  pick_plan obj !! k = Some move →
  (∀ j, (j < k)%nat → pick_confirm env j = Completed) →
  pick_confirm env k ≠ Completed →
  ticking (safety_env env) → (31 ≤ fuel)%nat →
  ∃ w',
    ((completed_observed (safety_env env) (safety_status w) ∧
      handle_pick_place_command env fuel w = Ret tt w' ∧ closes w' = closes w) ∨
     (¬ completed_observed (safety_env env) (safety_status w) ∧
      handle_pick_place_command env fuel w = Exit 1 w' ∧ closes w' = S (closes w))) ∧
    scan_results w' = scan_results w ∧
    sent w' = sent w ++ map (step_message "pick_service") (take (S k) (pick_plan obj))
                     ++ [safety_request].
Proof.
  intros Hcat Hsel Hk Hok Hfail Htick Hfuel.
  destruct (selection_of_Some _ _ _ Hsel) as [Hanswered Hitems].
  assert (Hne : ∃ e l, scan_results w = e :: l).
  { rewrite Hcat. destruct items as [|x items']; [congruence | cbn; eauto]. }
  destruct Hne as (e & l & Hres).
  unfold handle_pick_place_command.
  rewrite (bind_Ret get_world _ w w w eq_refl).
  destruct (scan_results w) eqn:Hres'; [discriminate Hres|]. clear Hres e l.
  destruct (select_object_interactively_finalized items (answer env) w)
    as (w1 & Hselect & [l1 ->]); [congruence | exact Hanswered |].
  rewrite (bind_Ret _ _ _ _ _ Hselect), Hsel.
  rewrite (bind_Ret (modify _) _ _ tt _ eq_refl).
  set (w2 := add_log (LogTarget obj) (set_log l1 w)).
  destruct (execute_pick_sequence_first_failure obj (pick_confirm env) (safety_env env)
              fuel w2 k move Hk Hok Hfail Htick Hfuel)
    as (w3 & Hrun & Hscan & Hsent).
  exists w3. split; [|split; [rewrite Hscan; exact Hres' | exact Hsent]].
  destruct Hrun as [(Hobs & Hrun & Hcl)|(Hnobs & Hrun & Hcl)].
  - left. split; [exact Hobs|]. split; [|exact Hcl].
    rewrite (bind_Ret _ _ _ _ _ Hrun). reflexivity.
  - right. split; [exact Hnobs|]. split; [|exact Hcl].
    unfold bind. rewrite Hrun. reflexivity.
Qed.

(** C5: on a finalized catalog, a pick and place command in which the
    selected object's pick plan fails at some step and the safety protocol
    completes within the deadline returns normally: the catalog is the one
    the command started with, the messages sent are the pick-plan commands
    up to the failed step and the safety request, none of them is a place
    command, and the transport has not been closed. *)
Theorem recovered_pick_failure_returns_to_idle
    (items : list Scanned) (env : PickPlaceEnv) (fuel : nat) (w : World)
    (obj : Scanned) (k : nat) (move : MovementStep) :
  scan_results w = map Item items →
  selection_of (answer env) items = Some obj →
  pick_plan obj !! k = Some move →
  (∀ j, (j < k)%nat → pick_confirm env j = Completed) →
  pick_confirm env k ≠ Completed →
  ticking (safety_env env) → (31 ≤ fuel)%nat →
  completed_observed (safety_env env) (safety_status w) →
  ∃ w',
    handle_pick_place_command env fuel w = Ret tt w' ∧
    scan_results w' = scan_results w ∧
    sent w' = sent w ++ map (step_message "pick_service") (take (S k) (pick_plan obj))
                     ++ [safety_request] ∧
    (∀ m, In m (sent w') → In m (sent w) ∨ service m ≠ "place_service") ∧
    closes w' = closes w.
Proof.
  intros Hcat Hsel Hk Hok Hfail Htick Hfuel Hobs.
  destruct (handle_pick_place_command_first_failure items env fuel w obj k move
              Hcat Hsel Hk Hok Hfail Htick Hfuel)
    as (w' & [(_ & Hrun & Hcl)|(Hnobs & _)] & Hscan & Hsent); [|contradiction].
  exists w'. split; [exact Hrun|]. split; [exact Hscan|]. split; [exact Hsent|].
  split; [|exact Hcl].
  intros m. rewrite Hsent, !in_app_iff, in_map_iff.
  intros [Hold|[(s & <- & _)|[<-|[]]]]; [left; exact Hold|right..]; discriminate.
Qed.

(** The fatal path from the menu: a pick and place command whose pick plan
    fails while the safety protocol never completes ends the program with
    exit code 1 after two calls of [close], the one of
    [handle_movement_failure] and the one of [run]'s [finally] clause. *)
Lemma run_fatal_pick_closes_twice
    (items : list Scanned) (line : string) (scan : ScanEnv) (env : PickPlaceEnv)
    (rest : list Step) (fuel : nat) (w : World)
    (obj : Scanned) (k : nat) (move : MovementStep) :
  lower (strip line) = "p" →
  scan_results w = map Item items →
  selection_of (answer env) items = Some obj →
  pick_plan obj !! k = Some move →
  (∀ j, (j < k)%nat → pick_confirm env j = Completed) →
  pick_confirm env k ≠ Completed →
  ticking (safety_env env) → (31 ≤ fuel)%nat →
  ¬ completed_observed (safety_env env) (safety_status w) →
  ∃ w', run true fuel (Input line scan env :: rest) w = Exit 1 w' ∧
        closes w' = S (S (closes w)) ∧
        sent w' = sent w ++ map (step_message "pick_service") (take (S k) (pick_plan obj))
                         ++ [safety_request].
Proof.
  intros Hline Hcat Hsel Hk Hok Hfail Htick Hfuel Hnobs.
  set (w0 := add_log (Log INFO "connected to VEX brain") w).
  destruct (print_menu_logged w0) as (w1 & Hmenu & [l1 ->]).
  destruct (handle_pick_place_command_first_failure items env fuel (set_log l1 w0)
              obj k move Hcat Hsel Hk Hok Hfail Htick Hfuel)
    as (w' & [(Hobs & _)|(_ & Hrun & Hcl)] & _ & Hsent); [contradiction|].
  eexists. split.
  - apply run_closes_on_exit. fold w0. cbn [main_menu_loop].
    rewrite (bind_Ret _ _ _ _ _ Hmenu), Hline. cbn [String.eqb Ascii.eqb Bool.eqb].
    unfold bind. rewrite Hrun. reflexivity.
  - cbn [closes sent add_close add_log]. rewrite Hcl, Hsent. split; reflexivity.
Qed.

Lemma recovered_pick_failure_witness :
  ∃ w',
    handle_pick_place_command (gripper_stuck (Some 10%nat)) 31
      (set_scan_results (map Item two_objects) Robot_init) = Ret tt w' ∧
    scan_results w' = map Item two_objects ∧
    sent w' = [ step_message "pick_service" (mkStep "base" (Some 10) None None (Some 30));
                step_message "pick_service" (mkStep "arm" None (Some 100) (Some "pick") None);
                step_message "pick_service" (mkStep "gripper" None None (Some "close") None);
                safety_request ] ∧
    closes w' = 0%nat.
Proof.
  destruct (recovered_pick_failure_returns_to_idle two_objects
              (gripper_stuck (Some 10%nat)) 31
              (set_scan_results (map Item two_objects) Robot_init)
              (mkScanned 1 10 100 "apple" 0.9%Q (mkZone 90 200)) 2
              (mkStep "gripper" None None (Some "close") None)
              eq_refl eq_refl eq_refl)
    as (w' & Hrun & Hscan & Hsent & _ & Hcl).
  - intros j Hj. unfold gripper_stuck, fails_at. cbn.
    destruct (decide (j = 2%nat)); [lia | reflexivity].
  - discriminate.
  - apply steady_env_ticking.
  - lia.
  - exists 10%nat. split; reflexivity.
  - exists w'. split; [exact Hrun|]. split; [exact Hscan|]. split; [exact Hsent | exact Hcl].
Defined.

(** ** End-to-end scenarios under [run] *)

(** Scenario C: scan, pick object 1, the gripper never confirms, the safety
    protocol completes at time 10; the user then quits.  The program ends
    normally, no place command was sent, the connection is closed once (by
    [run]). *)
Example scenario_C :
  ∃ w', run true 31 [Input "n" scan_two (gripper_stuck None);
                     Input "p" scan_two (gripper_stuck (Some 10%nat));
                     Input "q" scan_two (gripper_stuck None)] Robot_init = Ret tt w' ∧
        map service (sent w') =
          ["scan_service"; "pick_service"; "pick_service"; "pick_service"; "safety_service"] ∧
        scan_results w' = map Item two_objects ∧
        closes w' = 1%nat.
Proof. eexists. split; [vm_compute; reflexivity|]. vm_compute. auto. Qed.

(** C1 as stated does not hold. Scenario D: as scenario C, but the safety
    status never becomes [completed]. The single call of
    [handle_movement_failure] (one safety request) closes the transport and
    raises [SystemExit]; no [except Exception] clause on the way up catches
    it, and the [finally] clause of [run] calls [close] a second time while
    the exit unwinds: the process ends with exit code 1 after two calls of
    [close], not one. *)
Lemma fatal_path_closes_twice :
  ∃ w', run true 31 [Input "n" scan_two (gripper_stuck None);
                     Input "p" scan_two (gripper_stuck None);
                     Input "q" scan_two (gripper_stuck None)] Robot_init = Exit 1 w' ∧
        map service (sent w') =
          ["scan_service"; "pick_service"; "pick_service"; "pick_service"; "safety_service"] ∧
        closes w' = 2%nat ∧ closes w' ≠ 1%nat.
Proof.
  eexists. split; [vm_compute; reflexivity|]. vm_compute.
  split; [reflexivity|]. split; [reflexivity | discriminate].
Qed.

(** * Further properties of the orchestration code *)

(** ** Plans whose steps are all confirmed *)

Section Transmits.

Lemma transmits_refl w : transmits [] w w.
Proof. unfold transmits. rewrite app_nil_r. auto. Qed.

Lemma transmits_trans m1 m2 w1 w2 w3 :
  transmits m1 w1 w2 → transmits m2 w2 w3 → transmits (m1 ++ m2) w1 w3.
Proof.
  intros (Hs1 & Hc1 & Hf1 & Hr1) (Hs2 & Hc2 & Hf2 & Hr2).
  unfold transmits. rewrite Hs2, Hs1, app_assoc. repeat split; congruence.
Qed.

Lemma transmits_logged w w' : logged w w' → transmits [] w w'.
Proof. intros [l ->]. unfold transmits. cbn. rewrite app_nil_r. auto. Qed.

Lemma transmits_sends_only msgs w w' : sends_only msgs w w' → transmits msgs w w'.
Proof. intros (Hs & Hc & Hf & Hr & _). unfold transmits. auto. Qed.

(** Appending log records before or after does not matter. *)
Lemma transmits_logged_l msgs w0 w w' :
  logged w0 w → transmits msgs w w' → transmits msgs w0 w'.
Proof.
  intros Hl Ht. apply (transmits_trans [] msgs w0 w w'); [apply transmits_logged, Hl | exact Ht].
Qed.

Lemma transmits_logged_r msgs w w' w1 :
  transmits msgs w w' → logged w' w1 → transmits msgs w w1.
Proof.
  intros Ht Hl. rewrite <- (app_nil_r msgs).
  apply (transmits_trans msgs [] w w' w1); [exact Ht | apply transmits_logged, Hl].
Qed.

End Transmits.

(** A plan whose steps are all confirmed is sent in full. *)
Lemma execute_movement_all_confirmed
    (message_type : string) (plan : list MovementStep)
    (confirm : nat → Confirmation) (env : SafetyEnv) (fuel : nat) (w : World) :
  all_confirmed confirm (length plan) →
  ∃ w', execute_movement message_type plan confirm env fuel w = Ret tt w' ∧
        transmits (map (step_message message_type) plan) w w'.
Proof.
  intros Hok. unfold execute_movement.
  rewrite (bind_Ret (log_info _) _ w tt _ eq_refl).
  destruct (execute_steps_completed_prefix message_type confirm env fuel plan [] 0%nat
              (add_log (Log INFO (nl +:+ "execution movements:")) w) Hok)
    as (w1 & Hrun & Hs).
  rewrite app_nil_r in Hrun. rewrite Hrun. cbn [execute_steps].
  exists w1. split; [reflexivity|].
  eapply transmits_logged_l; [apply logged_add_log | apply transmits_sends_only, Hs].
Qed.

(** X1: when every step of a plan is confirmed, [execute_movement] returns
    normally after sending the command of every step, in plan order and
    once each, under the given tag; it requests no safety protocol, closes
    nothing and leaves the catalog and the safety status alone. *)
Theorem confirmed_plan_is_sent_in_full
    (message_type : string) (plan : list MovementStep)
    (confirm : nat → Confirmation) (env : SafetyEnv) (fuel : nat) (w : World) :
  all_confirmed confirm (length plan) →
  ∃ w',
    execute_movement message_type plan confirm env fuel w = Ret tt w' ∧
    sent w' = sent w ++ map (step_message message_type) plan ∧
    ¬ In safety_request (map (step_message message_type) plan) ∧
    closes w' = closes w ∧
    safety_status w' = safety_status w ∧
    scan_results w' = scan_results w.
Proof.
  intros Hok.
  destruct (execute_movement_all_confirmed message_type plan confirm env fuel w Hok)
    as (w' & Hrun & Hs & Hc & Hf & Hr).
  exists w'. split; [exact Hrun|]. split; [exact Hs|]. split; [|auto].
  rewrite in_map_iff. intros (move & Heq & _). discriminate Heq.
Qed.

(** A three-step plan, every step confirmed, sent by a robot that already
    sent something. *)
Lemma confirmed_plan_witness :
  ∃ w',
    execute_movement "place_service"
      [mkStep "base" (Some 90) None None (Some 30);
       mkStep "gripper" None None (Some "open") None;
       mkStep "base" (Some 0) None None (Some 60)]
      (λ _, Completed) (steady_env None) 0
      (add_sent safety_request Robot_init) = Ret tt w' ∧
    sent w' =
      [safety_request;
       step_message "place_service" (mkStep "base" (Some 90) None None (Some 30));
       step_message "place_service" (mkStep "gripper" None None (Some "open") None);
       step_message "place_service" (mkStep "base" (Some 0) None None (Some 60))].
Proof.
  destruct (confirmed_plan_is_sent_in_full "place_service"
              [mkStep "base" (Some 90) None None (Some 30);
               mkStep "gripper" None None (Some "open") None;
               mkStep "base" (Some 0) None None (Some 60)]
              (λ _, Completed) (steady_env None) 0
              (add_sent safety_request Robot_init))
    as (w' & Hrun & Hsent & _).
  - intros j _. reflexivity.
  - exists w'. split; [exact Hrun | exact Hsent].
Defined.

(** ** The pick and place command beyond a failing pick *)

Lemma execute_pick_sequence_all_confirmed
    (obj : Scanned) (confirm : nat → Confirmation) (env : SafetyEnv) (fuel : nat)
    (w : World) :
  all_confirmed confirm 4 →
  ∃ w', execute_pick_sequence obj confirm env fuel w = Ret true w' ∧
        transmits (map (step_message "pick_service") (pick_plan obj)) w w'.
Proof.
  intros Hok.
  destruct (execute_movement_all_confirmed "pick_service" (pick_plan obj) confirm env
              fuel w Hok) as (w' & Hrun & Ht).
  exists w'. split; [|exact Ht].
  unfold execute_pick_sequence, try_except.
  rewrite (bind_Ret _ _ _ _ _ Hrun). reflexivity.
Qed.

Lemma execute_place_sequence_all_confirmed
    (obj : Scanned) (confirm : nat → Confirmation) (env : SafetyEnv) (fuel : nat)
    (w : World) :
  all_confirmed confirm 5 →
  ∃ w', execute_place_sequence obj confirm env fuel w = Ret true w' ∧
        transmits (map (step_message "place_service") (place_plan obj)) w w'.
Proof.
  intros Hok.
  destruct (execute_movement_all_confirmed "place_service" (place_plan obj) confirm env
              fuel w Hok) as (w' & Hrun & Ht).
  exists w'. split; [|exact Ht].
  unfold execute_place_sequence, try_except.
  rewrite (bind_Ret _ _ _ _ _ Hrun). reflexivity.
Qed.

(** A place sequence whose plan fails at the step at position [k]: the
    failure is caught after a recovery, the exit is not. *)
Lemma execute_place_sequence_first_failure
    (obj : Scanned) (confirm : nat → Confirmation) (env : SafetyEnv) (fuel : nat)
    (w : World) (k : nat) (move : MovementStep) :
  place_plan obj !! k = Some move →
  first_failure confirm k →
  ticking env → (31 ≤ fuel)%nat →
  ∃ w',
    ((completed_observed env (safety_status w) ∧
      execute_place_sequence obj confirm env fuel w = Ret false w' ∧
      closes w' = closes w) ∨
     (¬ completed_observed env (safety_status w) ∧
      execute_place_sequence obj confirm env fuel w = Exit 1 w' ∧
      closes w' = S (closes w))) ∧
    scan_results w' = scan_results w ∧
    sent w' = sent w ++ map (step_message "place_service") (take (S k) (place_plan obj))
                     ++ [safety_request].
Proof.
  intros Hk [Hok Hfail] Htick Hfuel.
  pose proof (take_drop_middle _ _ _ Hk) as Hsplit.
  pose proof (take_S_r _ _ _ Hk) as Htake.
  assert (Hlen : length (take k (place_plan obj)) = k).
  { apply length_take_le. apply lookup_lt_Some in Hk. lia. }
  destruct (execute_movement_first_failure "place_service"
              (take k (place_plan obj)) (drop (S k) (place_plan obj)) move
              confirm env fuel w Htick Hfuel)
    as (w3 & Hrun & Hsent & _ & Hscan).
  { rewrite Hlen. exact Hok. }
  { rewrite Hlen. exact Hfail. }
  rewrite Hsplit, <- Htake in *.
  unfold execute_place_sequence, try_except.
  destruct Hrun as [(Hobs & Hrun & Hcl)|(Hnobs & Hrun & Hcl)].
  - rewrite (bind_Raise _ _ _ _ _ Hrun).
    eexists. split; [left; split; [exact Hobs|]; split; [reflexivity|]|];
      cbn [scan_results sent closes add_log]; auto.
  - exists w3. split; [right; split; [exact Hnobs|]; split; [|exact Hcl]|auto].
    unfold bind. rewrite Hrun. reflexivity.
Qed.

(** With a selected object and a pick plan confirmed throughout, the
    command sends the pick plan, logs the pick, and goes on with the place
    sequence. *)
Lemma handle_pick_place_command_after_pick
    (items : list Scanned) (env : PickPlaceEnv) (fuel : nat) (w : World) (obj : Scanned) :
  scan_results w = map Item items →
  selection_of (answer env) items = Some obj →
  all_confirmed (pick_confirm env) 4 →
  ∃ w3,
    transmits (map (step_message "pick_service") (pick_plan obj)) w w3 ∧
    In (Log INFO "¡pick completed!") (log w3) ∧
    handle_pick_place_command env fuel w =
    bind (execute_place_sequence obj (place_confirm env) (safety_env env) fuel)
         (λ placed, if placed then log_info "¡pick and place completed!" else ret tt) w3.
Proof.
  intros Hcat Hsel Hok.
  destruct (selection_of_Some _ _ _ Hsel) as [Hanswered Hitems].
  assert (Hne : ∃ e l, scan_results w = e :: l).
  { rewrite Hcat. destruct items as [|x items']; [congruence | cbn; eauto]. }
  destruct Hne as (e & l & Hres).
  unfold handle_pick_place_command.
  rewrite (bind_Ret get_world _ w w w eq_refl), Hres.
  destruct (select_object_interactively_finalized items (answer env) w Hcat Hanswered)
    as (w1 & Hselect & Hlog1).
  rewrite (bind_Ret _ _ _ _ _ Hselect), Hsel.
  rewrite (bind_Ret (modify _) _ _ tt _ eq_refl).
  destruct (execute_pick_sequence_all_confirmed obj (pick_confirm env) (safety_env env)
              fuel (add_log (LogTarget obj) w1) Hok) as (w2 & Hpick & Ht).
  rewrite (bind_Ret _ _ _ _ _ Hpick).
  rewrite (bind_Ret (log_info _) _ w2 tt _ eq_refl).
  eexists. split; [|split; [|reflexivity]].
  - eapply transmits_logged_r; [|apply logged_add_log].
    eapply transmits_logged_l; [|exact Ht].
    eapply logged_trans; [exact Hlog1 | apply logged_add_log].
  - cbn [log add_log]. apply in_or_app. right. left. reflexivity.
Qed.

(** X2: on a finalized catalog, a pick and place command with a valid
    selection whose nine steps are all confirmed returns normally after
    sending the four pick commands followed by the five place commands of
    the selected object, in plan order; it sends no safety request, closes
    nothing, leaves the catalog as it was and logs the completion. *)
Theorem pick_and_place_all_confirmed
    (items : list Scanned) (env : PickPlaceEnv) (fuel : nat) (w : World) (obj : Scanned) :
  scan_results w = map Item items →
  selection_of (answer env) items = Some obj →
  all_confirmed (pick_confirm env) 4 →
  all_confirmed (place_confirm env) 5 →
  ∃ w',
    handle_pick_place_command env fuel w = Ret tt w' ∧
    sent w' = sent w ++ map (step_message "pick_service") (pick_plan obj)
                     ++ map (step_message "place_service") (place_plan obj) ∧
    scan_results w' = scan_results w ∧
    closes w' = closes w ∧
    In (Log INFO "¡pick and place completed!") (log w').
Proof.
  intros Hcat Hsel Hpick Hplace.
  destruct (handle_pick_place_command_after_pick items env fuel w obj Hcat Hsel Hpick)
    as (w3 & Ht3 & _ & ->).
  destruct (execute_place_sequence_all_confirmed obj (place_confirm env) (safety_env env)
              fuel w3 Hplace) as (w4 & Hrun & Ht4).
  rewrite (bind_Ret _ _ _ _ _ Hrun).
  destruct (transmits_trans _ _ _ _ _ Ht3 Ht4) as (Hs & Hc & _ & Hr).
  eexists. split; [reflexivity|]. cbn [sent scan_results closes log add_log].
  split; [exact Hs|]. split; [exact Hr|]. split; [exact Hc|].
  apply in_or_app. right. left. reflexivity.
Qed.

(** The apple of the two-object catalog is picked and placed at angle 90,
    distance 200. *)
Lemma pick_and_place_witness :
  ∃ w',
    handle_pick_place_command (typed (Integer 1)) 0
      (set_scan_results (map Item two_objects) Robot_init) = Ret tt w' ∧
    sent w' =
      map (step_message "pick_service")
        [mkStep "base" (Some 10) None None (Some 30);
         mkStep "arm" None (Some 100) (Some "pick") None;
         mkStep "gripper" None None (Some "close") None;
         mkStep "arm" None (Some 100) (Some "up") None] ++
      map (step_message "place_service")
        [mkStep "base" (Some 90) None None (Some 30);
         mkStep "arm" None (Some 200) (Some "place") None;
         mkStep "gripper" None None (Some "open") None;
         mkStep "arm" None (Some 100) (Some "up") None;
         mkStep "base" (Some 0) None None (Some 60)].
Proof.
  destruct (pick_and_place_all_confirmed two_objects (typed (Integer 1)) 0
              (set_scan_results (map Item two_objects) Robot_init)
              (mkScanned 1 10 100 "apple" 0.9%Q (mkZone 90 200)) eq_refl eq_refl)
    as (w' & Hrun & Hsent & _).
  - intros j _. reflexivity.
  - intros j _. reflexivity.
  - exists w'. split; [exact Hrun | exact Hsent].
Defined.


Lemma execute_place_sequence_log_grows obj confirm env fuel :
  preserves log_grows (execute_place_sequence obj confirm env fuel).
Proof.
  apply preserves_execute_place_sequence.
  - apply log_grows_refl.
  - apply log_grows_trans.
  - intros r w. exists [r]. reflexivity.
  - intros m w. exists []. cbn. rewrite app_nil_r. reflexivity.
  - intros m w. exists []. cbn. rewrite app_nil_r. reflexivity.
  - intros st w. exists []. cbn. rewrite app_nil_r. reflexivity.
  - intros w. exists []. cbn. rewrite app_nil_r. reflexivity.
Qed.

(** X3: on a finalized catalog, when the pick plan of the selected object
    is confirmed throughout and its place plan fails at some step, the
    command has logged the completed pick and sent the whole pick plan, the
    place commands up to the failed step and one safety request, and nothing
    of the place steps that follow. It returns normally when the safety
    protocol completes in time and ends in [SystemExit] with code 1, after
    one [close], when it does not; the catalog is unchanged either way. *)
Theorem place_failure_after_pick
    (items : list Scanned) (env : PickPlaceEnv) (fuel : nat) (w : World)
    (obj : Scanned) (k : nat) (move : MovementStep) :
  scan_results w = map Item items →
  selection_of (answer env) items = Some obj →
  all_confirmed (pick_confirm env) 4 →
  place_plan obj !! k = Some move →
  first_failure (place_confirm env) k →
  ticking (safety_env env) → (31 ≤ fuel)%nat →
  ∃ w',
    ((completed_observed (safety_env env) (safety_status w) ∧
      handle_pick_place_command env fuel w = Ret tt w' ∧ closes w' = closes w) ∨
     (¬ completed_observed (safety_env env) (safety_status w) ∧
      handle_pick_place_command env fuel w = Exit 1 w' ∧ closes w' = S (closes w))) ∧
    scan_results w' = scan_results w ∧
    sent w' = sent w ++ map (step_message "pick_service") (pick_plan obj)
                     ++ map (step_message "place_service") (take (S k) (place_plan obj))
                     ++ [safety_request] ∧
    In (Log INFO "¡pick completed!") (log w').
Proof.
  intros Hcat Hsel Hpick Hk Hfirst Htick Hfuel.
  destruct (handle_pick_place_command_after_pick items env fuel w obj Hcat Hsel Hpick)
    as (w3 & (Hs3 & Hc3 & Hf3 & Hr3) & Hlogged & ->).
  destruct (execute_place_sequence_first_failure obj (place_confirm env) (safety_env env)
              fuel w3 k move Hk Hfirst Htick Hfuel)
    as (w4 & Hrun & Hscan & Hsent).
  pose proof (execute_place_sequence_log_grows obj (place_confirm env) (safety_env env)
                fuel w3) as Hgrow.
  rewrite Hf3 in Hrun.
  exists w4. split; [|split; [congruence|split]].
  - destruct Hrun as [(Hobs & Hrun & Hcl)|(Hnobs & Hrun & Hcl)].
    + left. split; [exact Hobs|]. split; [|congruence].
      rewrite (bind_Ret _ _ _ _ _ Hrun). reflexivity.
    + right. split; [exact Hnobs|]. split; [|congruence].
      unfold bind. rewrite Hrun. reflexivity.
  - rewrite Hsent, Hs3, <- app_assoc. reflexivity.
  - assert (Hl : log_grows w3 w4).
    { destruct Hrun as [(_ & Hrun & _)|(_ & Hrun & _)]; rewrite Hrun in Hgrow; exact Hgrow. }
    destruct Hl as [l ->]. apply in_or_app. left. exact Hlogged.
Qed.

(** The apple is picked, then opening the gripper over its zone reports a
    failure; the safety status turns [completed] at time 3. *)
Lemma place_failure_witness :
  ∃ w',
    handle_pick_place_command
      (mkPickPlaceEnv (Integer 1) (λ _, Completed) (fails_at 2 Failed)
                      (steady_env (Some 3%nat))) 31
      (set_scan_results (map Item two_objects) Robot_init) = Ret tt w' ∧
    map service (sent w') =
      ["pick_service"; "pick_service"; "pick_service"; "pick_service";
       "place_service"; "place_service"; "place_service"; "safety_service"] ∧
    scan_results w' = map Item two_objects.
Proof.
  destruct (place_failure_after_pick two_objects
              (mkPickPlaceEnv (Integer 1) (λ _, Completed) (fails_at 2 Failed)
                              (steady_env (Some 3%nat))) 31
              (set_scan_results (map Item two_objects) Robot_init)
              (mkScanned 1 10 100 "apple" 0.9%Q (mkZone 90 200)) 2
              (mkStep "gripper" None None (Some "open") None)
              eq_refl eq_refl)
    as (w' & [(_ & Hrun & _)|(Hnobs & _)] & Hscan & Hsent & _).
  - intros j _. reflexivity.
  - reflexivity.
  - split.
    + intros j Hj. unfold fails_at. cbn. destruct (decide (j = 2%nat)); [lia | reflexivity].
    + discriminate.
  - apply steady_env_ticking.
  - lia.
  - exists w'. split; [exact Hrun|]. split; [rewrite Hsent; reflexivity | exact Hscan].
  - exfalso. apply Hnobs. exists 3%nat. split; reflexivity.
Defined.





(** ** Scan results *)

Lemma process_entries_finalized_entry (objs : list Entry) :
  (∃ s, In (Item s) objs) →
  ∀ i acc w, ∃ w', process_entries i objs acc w = Raise (KeyError "position") w' ∧
                   logged w w'.
Proof.
  induction objs as [|[p|s0] objs IH]; intros (s & Hin) i acc w.
  - destruct Hin.
  - cbn [process_entries]. destruct Hin as [Heq|Hin]; [discriminate Heq|].
    destruct (IH (ex_intro _ s Hin) (i + 1)
                 (acc ++ [Item (finalize i p)]) (add_log (LogObj (finalize i p)) w))
      as (w' & Hrun & Hlog).
    exists w'. split.
    + unfold finalize in Hrun.
      rewrite (bind_Ret (modify _) _ w tt _ eq_refl). exact Hrun.
    + eapply logged_trans; [apply logged_add_log | exact Hlog].
  - exists w. split; [reflexivity | apply logged_refl].
Qed.

(** X5: [process_scan_results] on a catalog that holds an already finalized
    entry raises [KeyError] for the missing ['position'] key and leaves the
    catalog exactly as it was, also when provisional records precede that
    entry: records are only replaced when every one of them was finalized. *)
Theorem process_scan_results_on_finalized_entry (w : World) (s : Scanned) :
  In (Item s) (scan_results w) →
  ∃ w', process_scan_results w = Raise (KeyError "position") w' ∧
        scan_results w' = scan_results w ∧ logged w w'.
Proof.
  intros Hin. unfold process_scan_results.
  rewrite (bind_Ret get_world _ w w w eq_refl).
  destruct (scan_results w) as [|e l] eqn:Hres; [destruct Hin|].
  rewrite (bind_Ret (modify _) _ w tt _ eq_refl).
  destruct (process_entries_finalized_entry (e :: l) (ex_intro _ s Hin) 1 []
              (add_log (LogObjectsScanned (length (e :: l))) w))
    as (w' & Hrun & [lg ->]).
  rewrite (bind_Raise _ _ _ _ _ Hrun).
  eexists. split; [reflexivity|]. split; [exact Hres|]. eexists. reflexivity.
Qed.

(** Finalizing twice: the second call fails and changes nothing. *)
Lemma process_scan_results_twice_witness :
  ∃ w', process_scan_results
          (set_scan_results
             [Raw (provisional_of (detection "apple" 10 100));
              Item (mkScanned 1 20 150 "unknown" 0.9%Q (mkZone 270 200))] Robot_init)
        = Raise (KeyError "position") w' ∧
        scan_results w' =
          [Raw (provisional_of (detection "apple" 10 100));
           Item (mkScanned 1 20 150 "unknown" 0.9%Q (mkZone 270 200))].
Proof.
  destruct (process_scan_results_on_finalized_entry
              (set_scan_results
                 [Raw (provisional_of (detection "apple" 10 100));
                  Item (mkScanned 1 20 150 "unknown" 0.9%Q (mkZone 270 200))] Robot_init)
              (mkScanned 1 20 150 "unknown" 0.9%Q (mkZone 270 200)))
    as (w' & Hrun & Hscan & _).
  - right. left. reflexivity.
  - exists w'. split; [exact Hrun | exact Hscan].
Defined.

(** What a scan command leaves behind, whichever way the wait ends. *)
Lemma handle_scan_command_outcome (env : ScanEnv) (w : World) :
  ∃ w', handle_scan_command env w = Ret tt w' ∧
        logged (set_scan_callback false
                  (add_sent (mkMessage "scan_service" (PScan 20))
                     (set_scan_results
                        (if scan_signalled env
                         then map Item (catalog_of (scan_events env))
                         else map Raw (map provisional_of
                                         (List.filter classed (scan_events env)))) w))) w'.
Proof.
  destruct env as [events [|]]; cbn [scan_signalled scan_events].
  - apply handle_scan_command_complete.
  - apply handle_scan_command_timeout.
Qed.

(** X6: every scan command returns normally, having sent exactly one
    [scan_service] message with speed 20, with the detection subscription
    dropped, nothing closed and the joint and safety status untouched. The
    catalog it leaves depends on the events of this scan only, never on what
    the catalog held before: the finalized records of the classed events
    when the scan completed, their provisional records when it timed out. *)
Theorem scan_command_replaces_catalog (env : ScanEnv) (w : World) :
  ∃ w',
    handle_scan_command env w = Ret tt w' ∧
    scan_results w' =
      (if scan_signalled env
       then map Item (catalog_of (scan_events env))
       else map Raw (map provisional_of (List.filter classed (scan_events env)))) ∧
    sent w' = sent w ++ [mkMessage "scan_service" (PScan 20)] ∧
    scan_callback w' = false ∧
    closes w' = closes w ∧
    safety_status w' = safety_status w ∧
    movement_status w' = movement_status w.
Proof.
  destruct (handle_scan_command_outcome env w) as (w' & Hrun & [l ->]).
  eexists. split; [exact Hrun|]. cbn. auto 10.
Qed.

(** ** The catalog of a completed scan *)

Lemma catalog_of_lookup (events : list DetectionEvent) (k : nat) (s : Scanned) :
  catalog_of events !! k = Some s →
  ∃ data, List.filter classed events !! k = Some data ∧
          s = finalize (Z.of_nat k + 1) (provisional_of data).
Proof.
  unfold catalog_of. rewrite finalize_from_lookup, list_lookup_fmap.
  destruct (List.filter classed events !! k) as [data|]; [|discriminate].
  cbn. intros [= <-]. exists data. split; [reflexivity|]. f_equal. lia.
Qed.

Lemma catalog_of_length (events : list DetectionEvent) :
  length (catalog_of events) = length (List.filter classed events).
Proof. unfold catalog_of. rewrite finalize_from_length, length_map. reflexivity. Qed.

(** Every record that finalization builds from the classed events carries
    the class of its event, the zone of that class and an index within the
    catalog. *)
Lemma catalog_of_entry (events : list DetectionEvent) (s : Scanned) :
  In s (catalog_of events) →
  class s ≠ "" ∧
  _get_placement_zones (class s) = Some (placement_zone s) ∧
  (1 <= index s <= Z.of_nat (length (catalog_of events)))%Z.
Proof.
  intros Hin. apply list_elem_of_In, list_elem_of_lookup in Hin. destruct Hin as (k & Hk).
  pose proof (lookup_lt_Some _ _ _ Hk) as Hlt.
  destruct (catalog_of_lookup events k s Hk) as (data & Hdata & ->).
  assert (Hclassed : classed data = true).
  { apply list_elem_of_lookup_2, list_elem_of_In, filter_In in Hdata. apply Hdata. }
  unfold classed, truthy in Hclassed.
  destruct (ev_class data) as [[|c cls]|] eqn:Hcls; try discriminate.
  cbn [class finalize provisional_of detection_class placement_zone provisional_zone index].
  rewrite Hcls. cbn [default]. split; [discriminate|]. split; [reflexivity | lia].
Qed.

(** X7: a scan command whose completion is signalled returns, whatever the
    catalog held before and whatever events arrive, with a catalog in which
    every entry is a finalized record that carries a class that is not
    empty and the placement zone that [_get_placement_zones] gives for that
    class, and whose index lies between 1 and the size of the catalog. *)
Theorem catalog_entries_carry_their_zone (env : ScanEnv) (w : World) :
  scan_signalled env = true →
  ∃ w',
    handle_scan_command env w = Ret tt w' ∧
    ∀ e, In e (scan_results w') →
      ∃ s, e = Item s ∧
           class s ≠ "" ∧
           _get_placement_zones (class s) = Some (placement_zone s) ∧
           (1 <= index s <= Z.of_nat (length (scan_results w')))%Z.
Proof.
  intros Hsignal.
  destruct (handle_scan_command_outcome env w) as (w' & Hrun & [l ->]).
  rewrite Hsignal in Hrun.
  eexists. split; [exact Hrun|].
  cbn [scan_results set_log set_scan_callback add_sent set_scan_results].
  intros e He. apply in_map_iff in He. destruct He as (s & <- & Hs).
  exists s. split; [reflexivity|]. rewrite length_map.
  apply catalog_of_entry. exact Hs.
Qed.

(** A scan that saw an unnamed object and a bottle leaves one entry: the
    bottle, index 1, zone at angle 45 and distance 200. *)
Lemma catalog_entries_witness :
  ∃ w',
    handle_scan_command (mkScanEnv [empty_class 5 5; detection "Bottle" 20 150] true)
                        Robot_init = Ret tt w' ∧
    ∀ e, In e (scan_results w') →
      ∃ s, e = Item s ∧
           class s ≠ "" ∧
           _get_placement_zones (class s) = Some (placement_zone s) ∧
           (1 <= index s <= Z.of_nat (length (scan_results w')))%Z.
Proof.
  apply (catalog_entries_carry_their_zone
           (mkScanEnv [empty_class 5 5; detection "Bottle" 20 150] true) Robot_init).
  reflexivity.
Defined.

Lemma find_index_finalize_from (ps : list Provisional) :
  ∀ i n, (i <= n < i + Z.of_nat (length ps))%Z →
    List.find (λ x, Z.eqb (index x) n) (finalize_from i ps) =
    finalize_from i ps !! Z.to_nat (n - i).
Proof.
  induction ps as [|p ps IH]; intros i n Hn; cbn [length] in Hn; [lia|].
  cbn [finalize_from List.find index finalize].
  destruct (Z.eqb_spec i n) as [->|Hne].
  - rewrite Z.sub_diag. reflexivity.
  - rewrite IH by lia.
    replace (Z.to_nat (n - i)) with (S (Z.to_nat (n - (i + 1)))) by lia.
    reflexivity.
Qed.

(** X8: after a scan command whose completion is signalled, when [int]
    reads from the selection line the number n of a listed object (n from 1
    to the number of classed events of the scan),
    [select_object_interactively] returns the n-th entry of the catalog,
    that is the record with index n of the n-th classed event in arrival
    order, and only prints. *)
Theorem selection_returns_nth_object (env : ScanEnv) (n : Z) (w : World) :
  scan_signalled env = true →
  (1 <= n <= Z.of_nat (length (List.filter classed (scan_events env))))%Z →
  ∃ w1 w' data,
    handle_scan_command env w = Ret tt w1 ∧
    select_object_interactively (Integer n) w1 =
      Ret (Some (finalize n (provisional_of data))) w' ∧
    List.filter classed (scan_events env) !! Z.to_nat (n - 1) = Some data ∧
    scan_results w1 !! Z.to_nat (n - 1) = Some (Item (finalize n (provisional_of data))) ∧
    logged w1 w'.
Proof.
  intros Hsignal Hn.
  destruct (handle_scan_command_outcome env w) as (w1 & Hscan & [l ->]).
  rewrite Hsignal in Hscan.
  set (events := scan_events env) in *.
  set (w1 := set_log l _) in *.
  assert (Hcat : scan_results w1 = map Item (catalog_of events)) by reflexivity.
  rewrite <- catalog_of_length in Hn.
  destruct (select_object_interactively_finalized (catalog_of events) (Integer n) w1 Hcat)
    as (w' & Hrun & Hlog); [discriminate|].
  assert (Hsel : selection_of (Integer n) (catalog_of events) =
                 catalog_of events !! Z.to_nat (n - 1)).
  { unfold selection_of.
    destruct (Z.eqb_spec n 0) as [->|_]; [lia|].
    unfold catalog_of in *. apply find_index_finalize_from.
    rewrite finalize_from_length in Hn. lia. }
  destruct (lookup_lt_is_Some_2 (catalog_of events) (Z.to_nat (n - 1))) as [s Hs]; [lia|].
  destruct (catalog_of_lookup events _ s Hs) as (data & Hdata & ->).
  replace (Z.of_nat (Z.to_nat (n - 1)) + 1) with n in * by lia.
  exists w1, w', data. split; [exact Hscan|]. split; [rewrite Hrun, Hsel, Hs; reflexivity|].
  split; [exact Hdata|]. split; [|exact Hlog].
  rewrite Hcat, list_lookup_fmap, Hs. reflexivity.
Qed.

(** Three events, the second unclassified: the answer 2 selects the third. *)
Lemma selection_returns_nth_witness :
  ∃ w1 w' data,
    handle_scan_command
      (mkScanEnv [detection "apple" 10 100; no_class 5 5; detection "orange" 20 150] true)
      Robot_init = Ret tt w1 ∧
    select_object_interactively (Integer 2) w1 =
      Ret (Some (finalize 2 (provisional_of data))) w' ∧
    data = detection "orange" 20 150.
Proof.
  destruct (selection_returns_nth_object
              (mkScanEnv [detection "apple" 10 100; no_class 5 5;
                          detection "orange" 20 150] true)
              2 Robot_init eq_refl)
    as (w1 & w' & data & Hscan & Hrun & Hdata & _).
  - cbn. lia.
  - exists w1, w', data. split; [exact Hscan|]. split; [exact Hrun|].
    vm_compute in Hdata. injection Hdata as <-. reflexivity.
Defined.

(** ** Calls of [close] over a whole run *)

Section ClosesOnlyToExit.

Lemma closes_only_to_exit_ret {A} (a : A) : closes_only_to_exit (ret a).
Proof. intros w. reflexivity. Qed.

Lemma closes_only_to_exit_raise {A} (e : Exn) : closes_only_to_exit (@raise A e).
Proof. intros w. reflexivity. Qed.

Lemma closes_only_to_exit_get_world : closes_only_to_exit get_world.
Proof. intros w. reflexivity. Qed.

Lemma closes_only_to_exit_modify (f : World → World) :
  (∀ w, closes (f w) = closes w) → closes_only_to_exit (modify f).
Proof. intros Hf w. apply Hf. Qed.

Lemma closes_only_to_exit_bind {A B} (m : M A) (k : A → M B) :
  closes_only_to_exit m → (∀ a, closes_only_to_exit (k a)) →
  closes_only_to_exit (bind m k).
Proof.
  intros Hm Hk w. unfold bind. specialize (Hm w).
  destruct (m w) as [a w1|e w1|c w1|]; try assumption.
  specialize (Hk a w1). destruct (k a w1); try assumption; congruence.
Qed.

Lemma closes_only_to_exit_try_except {A} (m : M A) (h : Exn → M A) :
  closes_only_to_exit m → (∀ e, closes_only_to_exit (h e)) →
  closes_only_to_exit (try_except m h).
Proof.
  intros Hm Hh w. unfold try_except. specialize (Hm w).
  destruct (m w) as [a w1|e w1|c w1|]; try assumption.
  specialize (Hh e w1). destruct (h e w1); try assumption; congruence.
Qed.

Lemma closes_only_to_exit_try_except_ValueError {A} (m h : M A) :
  closes_only_to_exit m → closes_only_to_exit h →
  closes_only_to_exit (try_except_ValueError m h).
Proof.
  intros Hm Hh w. unfold try_except_ValueError. specialize (Hm w).
  destruct (m w) as [a w1|e w1|c w1|]; try assumption.
  destruct e; try assumption.
  specialize (Hh w1). destruct (h w1); try assumption; congruence.
Qed.

(** Decompose a goal along the structure of the computation. *)
Ltac closes_tac :=
  repeat match goal with
  | |- closes_only_to_exit (ret _) => apply closes_only_to_exit_ret
  | |- closes_only_to_exit (raise _) => apply closes_only_to_exit_raise
  | |- closes_only_to_exit get_world => apply closes_only_to_exit_get_world
  | |- closes_only_to_exit (log_info _) => apply closes_only_to_exit_modify; reflexivity
  | |- closes_only_to_exit (log_error _) => apply closes_only_to_exit_modify; reflexivity
  | |- closes_only_to_exit (log_warning _) => apply closes_only_to_exit_modify; reflexivity
  | |- closes_only_to_exit (print _) => apply closes_only_to_exit_modify; reflexivity
  | |- closes_only_to_exit (send_message _ _) =>
      apply closes_only_to_exit_modify; reflexivity
  | |- closes_only_to_exit (modify _) => apply closes_only_to_exit_modify; reflexivity
  | |- closes_only_to_exit (bind _ _) => apply closes_only_to_exit_bind; [|intros]
  | |- closes_only_to_exit (try_except _ _) =>
      apply closes_only_to_exit_try_except; [|intros]
  | |- closes_only_to_exit (try_except_ValueError _ _) =>
      apply closes_only_to_exit_try_except_ValueError
  | |- closes_only_to_exit (if ?b then _ else _) => destruct b
  | |- closes_only_to_exit (match ?o with Some _ => _ | None => _ end) => destruct o
  | |- closes_only_to_exit (match ?a with
                            | EndOfInput => _ | NotAnInteger => _ | Integer _ => _
                            end) => destruct a
  end.

Lemma closes_only_to_exit_handle_movement_failure env fuel :
  ticking env → (31 ≤ fuel)%nat →
  closes_only_to_exit (handle_movement_failure env fuel).
Proof.
  intros Htick Hfuel w.
  destruct (handle_movement_failure_cases env fuel w Htick Hfuel)
    as [(_ & w' & -> & Hc & _)|(_ & w' & -> & Hc & _)]; auto.
Qed.

Lemma closes_only_to_exit_wait_for_confirmation c j :
  closes_only_to_exit (wait_for_confirmation c j).
Proof. destruct c; unfold wait_for_confirmation; closes_tac. Qed.

Lemma closes_only_to_exit_execute_steps tag moves confirm env fuel :
  ticking env → (31 ≤ fuel)%nat →
  ∀ k, closes_only_to_exit (execute_steps tag moves confirm k env fuel).
Proof.
  intros Htick Hfuel.
  induction moves as [|move moves IH]; intros k; cbn [execute_steps]; closes_tac.
  - apply closes_only_to_exit_wait_for_confirmation.
  - apply closes_only_to_exit_handle_movement_failure; assumption.
  - apply IH.
Qed.

Lemma closes_only_to_exit_print_listing objs : closes_only_to_exit (print_listing objs).
Proof.
  induction objs as [|[p|o] objs IH]; cbn [print_listing]; closes_tac. exact IH.
Qed.

Lemma closes_only_to_exit_find_index selection objs :
  closes_only_to_exit (find_index selection objs).
Proof.
  induction objs as [|[p|o] objs IH]; cbn [find_index]; closes_tac. exact IH.
Qed.

Lemma closes_only_to_exit_handle_pick_place_command env fuel :
  ticking (safety_env env) → (31 ≤ fuel)%nat →
  closes_only_to_exit (handle_pick_place_command env fuel).
Proof.
  intros Htick Hfuel.
  unfold handle_pick_place_command, select_object_interactively,
         execute_pick_sequence, execute_place_sequence, execute_movement.
  closes_tac;
    first [ apply closes_only_to_exit_print_listing
          | apply closes_only_to_exit_find_index
          | apply closes_only_to_exit_execute_steps; assumption ].
Qed.

Lemma closes_only_to_exit_handle_scan_command env :
  closes_only_to_exit (handle_scan_command env).
Proof.
  intros w. destruct (handle_scan_command_outcome env w) as (w' & -> & [l ->]). reflexivity.
Qed.

Lemma closes_only_to_exit_deliver data : closes_only_to_exit (deliver data).
Proof.
  intros w. destruct (scan_callback w) eqn:Hsub; [destruct (classed data) eqn:Hc|].
  - rewrite (deliver_classed data w Hsub Hc). reflexivity.
  - rewrite (deliver_unclassed data w Hc). reflexivity.
  - rewrite (deliver_unsubscribed data w Hsub). reflexivity.
Qed.

Lemma closes_only_to_exit_main_menu_loop fuel script :
  (31 ≤ fuel)%nat → script_ticking script →
  closes_only_to_exit (main_menu_loop fuel script).
Proof.
  intros Hfuel.
  induction script as [|[line scan pick_place|data] script IH]; intros Htick;
    cbn [main_menu_loop]; unfold print_menu.
  - closes_tac.
  - assert (Hrest : closes_only_to_exit (main_menu_loop fuel script)).
    { apply IH. intros l s pp Hin. apply (Htick l s pp). right. exact Hin. }
    closes_tac; try exact Hrest.
    + apply closes_only_to_exit_handle_scan_command.
    + apply closes_only_to_exit_handle_pick_place_command; [|exact Hfuel].
      apply (Htick line scan pick_place). left. reflexivity.
  - closes_tac; [apply closes_only_to_exit_deliver|].
    apply IH. intros l s pp Hin. apply (Htick l s pp). right. exact Hin.
Qed.

End ClosesOnlyToExit.

(** X9: with a ticking clock, [run] always ends, whatever the user types and
    the transport does. When it returns or raises an exception it has
    called [close] exactly once; when it ends in [SystemExit] the code is 1
    and [close] has been called exactly twice. *)
Theorem run_closes_once_or_twice
    (connected : bool) (fuel : nat) (script : list Step) (w : World) :
  (31 ≤ fuel)%nat → script_ticking script →
  ∃ w',
    ((run connected fuel script w = Ret tt w' ∨
      ∃ e, run connected fuel script w = Raise e w') ∧ closes w' = S (closes w)) ∨
    (run connected fuel script w = Exit 1 w' ∧ closes w' = S (S (closes w))).
Proof.
  intros Hfuel Htick. unfold run, try_finally.
  destruct connected.
  - rewrite (bind_Ret (log_info _) _ w tt _ eq_refl).
    pose proof (closes_only_to_exit_main_menu_loop fuel script Hfuel Htick
                  (add_log (Log INFO "connected to VEX brain") w)) as Hloop.
    destruct (main_menu_loop fuel script _) as [[] w1|e w1|c w1|]; [| | |destruct Hloop].
    + eexists. left. split; [left; reflexivity|]. cbn. rewrite Hloop. reflexivity.
    + eexists. left. split; [right; eexists; reflexivity|]. cbn. rewrite Hloop. reflexivity.
    + destruct Hloop as [-> Hc]. eexists. right. split; [reflexivity|].
      cbn. rewrite Hc. reflexivity.
  - eexists. left. split; [left; reflexivity|]. reflexivity.
Qed.

(** A session that ends because the input is exhausted: [EOFError] after
    one [close]. *)
Lemma run_closes_witness :
  ∃ w',
    ((run true 31 [Input "n" scan_two (gripper_stuck None);
                   Input "p" scan_two (gripper_stuck (Some 10%nat))] Robot_init = Ret tt w' ∨
      ∃ e, run true 31 [Input "n" scan_two (gripper_stuck None);
                        Input "p" scan_two (gripper_stuck (Some 10%nat))] Robot_init
           = Raise e w') ∧ closes w' = 1%nat) ∨
    (run true 31 [Input "n" scan_two (gripper_stuck None);
                  Input "p" scan_two (gripper_stuck (Some 10%nat))] Robot_init = Exit 1 w' ∧
     closes w' = 2%nat).
Proof.
  apply (run_closes_once_or_twice true 31
           [Input "n" scan_two (gripper_stuck None);
            Input "p" scan_two (gripper_stuck (Some 10%nat))] Robot_init).
  - lia.
  - intros line scan pp Hin. destruct Hin as [Heq|[Heq|[]]];
      injection Heq as _ _ <-; apply steady_env_ticking.
Defined.

(** ** Joint angles *)


(** ** The detection callback *)

(** X11: [_scan_callback] never raises and never logs, whatever keys the
    event lacks: the [except] clause of [_update_object_registry] is never
    taken. An event without a class, or with an empty one, leaves the world
    as it is; any other event appends exactly one provisional record, in
    which a missing angle or distance reads 0, a missing confidence 0 and a
    missing image path the empty string. *)
Theorem scan_callback_never_raises (data : DetectionEvent) (w : World) :
  (classed data = false → _scan_callback data w = Ret tt w) ∧
  (classed data = true →
   ∃ cls, ev_class data = Some cls ∧ cls ≠ "" ∧
     _scan_callback data w =
     Ret tt (set_scan_results
               (scan_results w ++
                  [Raw (mkProvisional (default 0 (ev_angle data))
                                      (default 0 (ev_distance data)) cls
                                      (default 0%Q (ev_confidence data))
                                      (default "" (ev_image_path data))
                                      (zone_of cls))]) w)) ∧
  (∀ c cls,
     _scan_callback (mkEvent (Some (String c cls)) None None None None) w =
     Ret tt (set_scan_results
               (scan_results w ++
                  [Raw (mkProvisional 0 0 (String c cls) 0%Q "" (zone_of (String c cls)))])
               w)).
Proof.
  unfold classed, _scan_callback. split; [|split].
  - intros ->. reflexivity.
  - intros Hc. rewrite Hc. unfold truthy in Hc.
    destruct (ev_class data) as [[|c cls]|] eqn:Hcls; try discriminate.
    exists (String c cls). split; [reflexivity|]. split; [discriminate|].
    rewrite _update_object_registry_appends. unfold provisional_of. rewrite Hcls. reflexivity.
  - intros c cls. reflexivity.
Qed.

(** An event that only names its class. *)
Lemma scan_callback_witness :
  ∃ cls, Some "orange" = Some cls ∧ cls ≠ "" ∧
    _scan_callback (mkEvent (Some "orange") None None None None) Robot_init =
    Ret tt (set_scan_results
              [Raw (mkProvisional 0 0 cls 0%Q "" (zone_of cls))] Robot_init).
Proof.
  destruct (scan_callback_never_raises (mkEvent (Some "orange") None None None None)
              Robot_init) as (_ & Happend & _).
  apply Happend. reflexivity.
Defined.

(** ** From a scan to the placement zone *)

(** X12: a completed scan followed by a pick and place command in which
    [int] reads from the selection line the number n of a listed object and
    every step is confirmed:
    the messages sent are the scan request, the four pick commands aimed at
    the angle and distance of the n-th classed event, and the five place
    commands aimed at the zone that the class of that event maps to. *)
Theorem scanned_object_is_placed_in_its_zone
    (events : list DetectionEvent) (env : PickPlaceEnv) (fuel : nat) (w : World)
    (n : Z) (data : DetectionEvent) :
  List.filter classed events !! Z.to_nat (n - 1) = Some data →
  (1 <= n)%Z →
  answer env = Integer n →
  all_confirmed (pick_confirm env) 4 →
  all_confirmed (place_confirm env) 5 →
  let angle := default 0 (ev_angle data) in
  let dist := default 0 (ev_distance data) in
  let zone := zone_of (default "default" (ev_class data)) in
  ∃ w1 w2,
    handle_scan_command (mkScanEnv events true) w = Ret tt w1 ∧
    handle_pick_place_command env fuel w1 = Ret tt w2 ∧
    sent w2 =
      sent w ++ [mkMessage "scan_service" (PScan 20)] ++
      map (step_message "pick_service")
        [mkStep "base" (Some angle) None None (Some 30);
         mkStep "arm" None (Some dist) (Some "pick") None;
         mkStep "gripper" None None (Some "close") None;
         mkStep "arm" None (Some dist) (Some "up") None] ++
      map (step_message "place_service")
        [mkStep "base" (Some (zone_angle zone)) None None (Some 30);
         mkStep "arm" None (Some (zone_distance zone)) (Some "place") None;
         mkStep "gripper" None None (Some "open") None;
         mkStep "arm" None (Some dist) (Some "up") None;
         mkStep "base" (Some 0) None None (Some 60)].
Proof.
  intros Hdata Hn Hint Hpick Hplace angle dist zone.
  destruct (handle_scan_command_outcome (mkScanEnv events true) w) as (w1 & Hscan & [l ->]).
  cbn [scan_signalled scan_events] in Hscan.
  set (w1 := set_log l _) in *.
  assert (Hcat : scan_results w1 = map Item (catalog_of events)) by reflexivity.
  assert (Hlen : (n <= Z.of_nat (length (catalog_of events)))%Z).
  { rewrite catalog_of_length. apply lookup_lt_Some in Hdata. lia. }
  assert (Hsel : selection_of (answer env) (catalog_of events) =
                 Some (finalize n (provisional_of data))).
  { unfold selection_of. rewrite Hint.
    destruct (Z.eqb_spec n 0) as [->|_]; [lia|].
    unfold catalog_of in *. rewrite find_index_finalize_from
      by (rewrite finalize_from_length in Hlen; lia).
    rewrite finalize_from_lookup, list_lookup_fmap, Hdata. cbn. do 2 f_equal. lia. }
  destruct (handle_pick_place_command_after_pick (catalog_of events) env fuel w1 _
              Hcat Hsel Hpick) as (w3 & Ht3 & _ & Heq).
  destruct (execute_place_sequence_all_confirmed (finalize n (provisional_of data))
              (place_confirm env) (safety_env env) fuel w3 Hplace) as (w4 & Hrun & Ht4).
  destruct (transmits_trans _ _ _ _ _ Ht3 Ht4) as (Hs & _).
  exists w1. eexists. split; [exact Hscan|]. split.
  - rewrite Heq, (bind_Ret _ _ _ _ _ Hrun). reflexivity.
  - cbn [sent add_log]. rewrite Hs. subst w1. cbn [sent set_log set_scan_callback add_sent
      set_scan_results]. rewrite <- !app_assoc. reflexivity.
Qed.

(** An orange seen second is carried to angle 180, distance 200. *)
Lemma scanned_object_placed_witness :
  ∃ w1 w2,
    handle_scan_command
      (mkScanEnv [detection "apple" 10 100; detection "Orange" 20 150] true) Robot_init
      = Ret tt w1 ∧
    handle_pick_place_command (typed (Integer 2)) 0 w1 = Ret tt w2 ∧
    sent w2 =
      [mkMessage "scan_service" (PScan 20)] ++
      map (step_message "pick_service")
        [mkStep "base" (Some 20) None None (Some 30);
         mkStep "arm" None (Some 150) (Some "pick") None;
         mkStep "gripper" None None (Some "close") None;
         mkStep "arm" None (Some 150) (Some "up") None] ++
      map (step_message "place_service")
        [mkStep "base" (Some 180) None None (Some 30);
         mkStep "arm" None (Some 200) (Some "place") None;
         mkStep "gripper" None None (Some "open") None;
         mkStep "arm" None (Some 150) (Some "up") None;
         mkStep "base" (Some 0) None None (Some 60)].
Proof.
  apply (scanned_object_is_placed_in_its_zone
           [detection "apple" 10 100; detection "Orange" 20 150] (typed (Integer 2)) 0
           Robot_init
           2 (detection "Orange" 20 150)).
  - reflexivity.
  - lia.
  - reflexivity.
  - intros j _. reflexivity.
  - intros j _. reflexivity.
Defined.

(** * Properties of the video stream *)

Lemma stream_loop_stops (env : VideoEnv) (n : nat) :
  ∀ fuel i trace,
    (∀ j, (i ≤ j < n)%nat → continues env j) →
    ¬ continues env n →
    (i ≤ n)%nat → (n - i < fuel)%nat →
    stream_loop env fuel i trace =
    Some (trace ++ concat (map (frame_events env) (seq i (n - i))) ++ last_events env n).
Proof.
  induction fuel as [|fuel IH]; intros i trace Hgo Hstop Hin Hfuel; [lia|].
  cbn [stream_loop].
  destruct (decide (i = n)) as [->|Hne].
  - rewrite Nat.sub_diag. cbn [seq map concat app]. unfold last_events, frame_events.
    destruct (frame_read (frames env n)) eqn:Hread; cbn [negb]; [|reflexivity].
    destruct (quits (frames env n)) eqn:Hq; [reflexivity|].
    exfalso. apply Hstop. split; assumption.
  - destruct (Hgo i ltac:(lia)) as [Hread Hq]. rewrite Hread, Hq. cbn [negb].
    rewrite IH; [|intros j Hj; apply Hgo; lia|exact Hstop|lia|lia].
    replace (n - i)%nat with (S (n - S i)) by lia.
    cbn [seq map concat]. unfold frame_events at 2.
    rewrite <- !app_assoc. reflexivity.
Qed.

(** X13: when the stream opens and iteration n is the first at which the
    frame cannot be read or the key [q] is pressed, [start_stream] returns
    [True]; every frame before n, and frame n itself if it was read, has
    been shown exactly once and in order, a detection has been drawn exactly
    on the shown frames whose best detection has a confidence above 0, and
    the capture is released and the windows destroyed exactly once, at the
    end. When the stream does not open, the call logs the error and returns
    [False] without reading, showing or releasing anything. *)
Theorem start_stream_shows_then_releases (env : VideoEnv) (fuel n : nat) :
  (∀ j, (j < n)%nat → continues env j) →
  ¬ continues env n →
  (n < fuel)%nat →
  start_stream env fuel =
  if is_opened env then
    Some (true, concat (map (frame_events env) (seq 0 n)) ++ last_events env n
                ++ [Release; DestroyAllWindows])
  else
    Some (false, [VideoError ("Error opening video stream or file: " +:+ source env)]).
Proof.
  intros Hgo Hstop Hfuel. unfold start_stream.
  destruct (is_opened env); cbn [negb]; [|reflexivity].
  rewrite (stream_loop_stops env n fuel 0 []); [|intros j Hj; apply Hgo; lia|exact Hstop|lia|lia].
  rewrite Nat.sub_0_r. cbn [app]. rewrite <- app_assoc. reflexivity.
Qed.

Lemma start_stream_witness :
  start_stream three_frames 3 =
  Some (true, [DrawDetection 0; ShowFrame 0; ShowFrame 1; ShowFrame 2;
               Release; DestroyAllWindows]).
Proof.
  rewrite (start_stream_shows_then_releases three_frames 3 2).
  - reflexivity.
  - intros j Hj. destruct j as [|[|j]]; [split; reflexivity..|lia].
  - intros [_ Hq]. discriminate Hq.
  - lia.
Defined.

(** X14: the stop test of [start_stream] looks at the low byte of the key
    code only: the loop stops exactly when the code is congruent to 113
    modulo 256, so the value -1 that [waitKey] returns when no key is
    pressed never stops it, and a code with higher bits set (113 + 256 k)
    does. *)
Theorem quits_on_low_byte (f : Frame) :
  (quits f = true ↔ key f mod 256 = 113) ∧
  (key f = -1 → quits f = false) ∧
  (∀ k, key f = 113 + 256 * k → quits f = true).
Proof.
  assert (Hland : Z.land (key f) 255 = key f mod 256).
  { change 255 with (Z.ones 8). rewrite Z.land_ones by lia. reflexivity. }
  unfold quits. rewrite Hland. split; [apply Z.eqb_eq|]. split.
  - intros ->. reflexivity.
  - intros k ->. apply Z.eqb_eq.
    replace (113 + 256 * k) with (113 + k * 256) by lia.
    rewrite Z_mod_plus_full. reflexivity.
Qed.

Lemma quits_witness :
  quits (mkFrame true None (-1)) = false ∧
  quits (mkFrame true None (113 + 256 * 16)) = true.
Proof.
  destruct (quits_on_low_byte (mkFrame true None (-1))) as (_ & Hnone & _).
  destruct (quits_on_low_byte (mkFrame true None (113 + 256 * 16))) as (_ & _ & Hhigh).
  split; [apply Hnone; reflexivity | apply (Hhigh 16); reflexivity].
Defined.

(** * Pick and place on a catalog that was never finalized *)

Lemma print_listing_provisional (objs : list Entry) :
  (∃ p, In (Raw p) objs) →
  ∀ w, ∃ w', print_listing objs w = Raise (KeyError "index") w' ∧ logged w w'.
Proof.
  induction objs as [|[p0|o] objs IH]; intros (p & Hin) w.
  - destruct Hin.
  - exists w. split; [reflexivity | apply logged_refl].
  - cbn [print_listing]. destruct Hin as [Heq|Hin]; [discriminate Heq|].
    destruct (IH (ex_intro _ p Hin) (add_log (PrintObj o) w)) as (w' & Hrun & Hlog).
    exists w'. split.
    + rewrite (bind_Ret (modify _) _ w tt _ eq_refl). exact Hrun.
    + eapply logged_trans; [apply logged_add_log | exact Hlog].
Qed.

Lemma select_object_interactively_provisional (answer : Answer) (w : World) :
  (∃ p, In (Raw p) (scan_results w)) →
  ∃ w', select_object_interactively answer w = Raise (KeyError "index") w' ∧ logged w w'.
Proof.
  intros Hin. unfold select_object_interactively.
  rewrite (bind_Ret (print _) _ w tt _ eq_refl).
  set (w0 := add_log _ w).
  rewrite (bind_Ret get_world _ w0 w0 w0 eq_refl).
  destruct (print_listing_provisional (scan_results w0) Hin w0) as (w' & Hrun & [lg ->]).
  rewrite (bind_Raise _ _ _ _ _ Hrun).
  eexists. split; [reflexivity|]. subst w0. eexists. reflexivity.
Qed.

(** X15: while [scan_results] holds a provisional record (one that no
    completed scan has finalized), every pick and place command fails with
    [KeyError] on the missing ['index'] key while listing the objects,
    before the user is asked anything: whatever the selection line and the
    transport would have been, nothing is sent and only the log changes. *)
Theorem pick_place_on_provisional_catalog_raises
    (env : PickPlaceEnv) (fuel : nat) (w : World) (p : Provisional) :
  In (Raw p) (scan_results w) →
  ∃ w', handle_pick_place_command env fuel w = Raise (KeyError "index") w' ∧
        sent w' = sent w ∧ scan_results w' = scan_results w ∧ logged w w'.
Proof.
  intros Hin.
  destruct (select_object_interactively_provisional (answer env) w
              (ex_intro _ p Hin)) as (w' & Hrun & [lg ->]).
  unfold handle_pick_place_command.
  rewrite (bind_Ret get_world _ w w w eq_refl).
  destruct (scan_results w) as [|e l] eqn:Hres; [destruct Hin|].
  rewrite (bind_Raise _ _ _ _ _ Hrun).
  eexists. split; [reflexivity|]. cbn.
  split; [reflexivity|]. split; [exact Hres|]. eexists. reflexivity.
Qed.

(** The records left by a scan that timed out after one detection. *)
Lemma pick_place_on_provisional_witness :
  ∃ w', handle_pick_place_command (typed (Integer 0)) 31
          (set_scan_results [Raw (provisional_of (detection "apple" 10 100))] Robot_init)
        = Raise (KeyError "index") w' ∧
        sent w' = [].
Proof.
  destruct (pick_place_on_provisional_catalog_raises (typed (Integer 0)) 31
              (set_scan_results [Raw (provisional_of (detection "apple" 10 100))] Robot_init)
              (provisional_of (detection "apple" 10 100)))
    as (w' & Hrun & Hsent & _).
  - left. reflexivity.
  - exists w'. split; [exact Hrun | exact Hsent].
Defined.
